(** * Audio recorder: recording session and local persistence

    A shallow embedding of the recorder of the Next.js playground:

    - [app/types/audio.ts]              the records [AudioRecording] and
                                        [RecordingState];
    - [app/lib/audioDevices.ts]         the class [AudioDeviceManager];
    - [app/lib/audioStorage.ts]         the class [AudioStorage] over IndexedDB;
    - [app/components/MicrophoneSelector.tsx] the choice of the microphone;
    - [app/components/AudioRecorder.tsx] the React component that drives a
                                        [MediaRecorder];
    - [app/page.tsx]                    the page and its list of recordings,
                                        with [deleteRecording] of
                                        [app/components/RecordingsList.tsx].

    JavaScript values are modelled as follows.  A number that holds an integer
    (a count of seconds, a time in milliseconds) is a [Z]; a string is a
    [string] of characters below 128, one for each UTF-16 code unit (see
    [Js.is_ascii]); a [Blob] is its bytes and its type; a [Date] is its time value
    in milliseconds.  Handles of platform objects (streams, recorders) are
    natural numbers into tables of the browser state, and the handle of an
    interval timer is a [positive], as [setInterval] returns an integer
    greater than zero.  The IndexedDB object store, keyed by [id], is a
    [gmap string AudioRecording].

    What the platform decides (whether [getUserMedia] resolves, which MIME
    type the recorder picks, the clock, whether a transaction succeeds) is a
    parameter of the function that asks for it. *)

From Stdlib Require Import ZArith List Sorted Permutation.
From Stdlib Require OrderedTypeEx.
From Stdlib.Strings Require Import Byte Ascii.
From stdpp Require Import gmap strings pretty list sorting.

Open Scope Z_scope.

(** ** Completions: a function either returns or throws *)

Module Js.

Inductive completion (A : Type) : Type :=
| Normal (a : A)
| Thrown (e : string).
Arguments Normal {A} a.
Arguments Thrown {A} e.

(** A computation over a state [S]: effects made before a throw stay. *)
Definition M (S A : Type) : Type := S -> completion A * S.

Definition ret {S A} (a : A) : M S A := fun s => (Normal a, s).
Definition throw {S A} (e : string) : M S A := fun s => (Thrown e, s).
Definition bind {S A B} (c : M S A) (k : A -> M S B) : M S B :=
  fun s => match c s with
           | (Normal a, s') => k a s'
           | (Thrown e, s') => (Thrown e, s')
           end.
(** [try { body } catch (e) { handler }] *)
Definition try_catch {S A} (body : M S A) (handler : string -> M S A) : M S A :=
  fun s => match body s with
           | (Normal a, s') => (Normal a, s')
           | (Thrown e, s') => handler e s'
           end.
Definition gets {S A} (f : S -> A) : M S A := fun s => (Normal (f s), s).
Definition modify {S} (f : S -> S) : M S unit := fun s => (Normal tt, f s).
(** [if (c) { body }] *)
Definition when {S} (c : bool) (body : M S unit) : M S unit :=
  if c then body else ret tt.
(** [try { body } finally { final }]: [final] runs in both cases, and the
    completion of [body] stands unless [final] throws. *)
Definition try_finally {S A} (body : M S A) (final : M S unit) : M S A :=
  fun s => match body s with
           | (c, s') => match final s' with
                        | (Normal _, s'') => (c, s'')
                        | (Thrown e, s'') => (Thrown e, s'')
                        end
           end.
(** The state a computation leaves, whether it returned or threw. *)
Definition exec {S A} (c : M S A) (s : S) : S := snd (c s).

Declare Scope js_scope.
Delimit Scope js_scope with js.
Notation "'let*' x := c 'in' k" := (bind c (fun x => k))
  (at level 10, x name, c at level 100, k at level 200, only parsing) : js_scope.
Notation "c ;; k" := (bind c (fun _ => k))
  (at level 100, k at level 200, right associativity, only parsing) : js_scope.

(** [s.padStart(targetLength, c)] for a pad string of one character. *)
Fixpoint pad (n : nat) (c : Ascii.ascii) (s : string) : string :=
  match n with
  | O => s
  | S n => String c (pad n c s)
  end.

Definition padStart (targetLength : nat) (c : Ascii.ascii) (s : string) : string :=
  pad (targetLength - String.length s) c s.

(** The strings of the program are taken to hold characters below 128
    only, as the identifiers of devices and of recordings do: for these
    the characters of a [string] are the UTF-16 code units of the
    JavaScript string, so that [String.length] is [length],
    [String.substring 0 n] is [slice(0, n)] and [String.ltb] is the order
    of the code units. *)
Fixpoint is_ascii (s : string) : bool :=
  match s with
  | EmptyString => true
  | String c s => (N_of_ascii c <? 128)%N && is_ascii s
  end.

(** A string is truthy unless it is empty. *)
Definition truthy (s : string) : bool := negb (bool_decide (s = "")).

(** [Array.prototype.sort(compare)]: [a] comes before [b] when
    [compare a b < 0], after it when [compare a b > 0], and elements that
    compare equal keep their order (the sort is stable since ES2019). *)
Section Sort.
Context {A : Type} (compare : A -> A -> Z).

Fixpoint sort_insert (x : A) (l : list A) : list A :=
  match l with
  | [] => [x]
  | y :: l' => if compare x y <=? 0 then x :: y :: l'
               else y :: sort_insert x l'
  end.

Definition sort (l : list A) : list A := foldr sort_insert [] l.

(** [a] may stand before [b]. *)
Definition before (a b : A) : Prop := compare a b <= 0.
End Sort.

End Js.

(** ** app/types/audio.ts *)

Record Blob := mkBlob {
  blob_data : list byte;
  blob_type : string;
}.

(** [blob.size] *)
Definition blob_size (b : Blob) : Z := Z.of_nat (length (blob_data b)).

(** [new Blob(parts, { type })]: the bytes of the parts, in order. *)
Definition new_Blob (parts : list Blob) (type : string) : Blob :=
  {| blob_data := concat (map blob_data parts); blob_type := type |}.


Record AudioRecording := mkAudioRecording {
  id : string;
  name : string;
  blob : Blob;
  duration : Z;
  createdAt : Z;
  mimeType : string;
}.

Record RecordingState := mkRecordingState {
  isRecording : bool;
  isPaused : bool;
  recordingTime : Z;
  mediaRecorder : option nat;
  audioStream : option nat;
}.

(** ** app/lib/audioStorage.ts *)

Module AudioStorage.
Import Js.

(** The outcome of an IndexedDB request: [onsuccess] or [onerror]. *)
Inductive Request := Success | Failure (error : string).

Inductive IDBDatabase := Connection.

(** [db] is the field [this.db] of the singleton [audioStorage];
    [recordings] is the object store of that name in the browser's
    database 'AudioRecorderDB', [None] when the database has no such
    store; [version] is the version of that database, 0 as long as the
    browser has none. *)
Record t := mk {
  db : option IDBDatabase;
  recordings : option (gmap string AudioRecording);
  version : N;
}.

Definition DB_VERSION : N := 1.

(** Before [init]: no handle yet.  The browser has no database, or one of
    version 1 with the store [m]. *)
Definition new (store : option (gmap string AudioRecording)) : t :=
  {| db := None; recordings := store;
     version := match store with Some _ => DB_VERSION | None => 0 end |}.

(** [init()]: [indexedDB.open(DB_NAME, DB_VERSION)].  When the database
    is older than [DB_VERSION], which is so when there is none, the
    request fires [onupgradeneeded], whose handler creates the object
    store unless there is one, and then [onsuccess], which keeps the
    handle.  When the database has that version already, only [onsuccess]
    fires: a store that is missing stays missing.  When it is newer, the
    request fails.  [onerror] rejects.  [open] is what the request does
    where the version leaves it open. *)
Definition init (open : Request) : M t unit :=
  fun s => match open with
           | Failure e => (Thrown e, s)
           | Success =>
               if (version s <? DB_VERSION)%N then
                 (Normal tt,
                  {| db := Some Connection;
                     recordings := Some (default ∅ (recordings s));
                     version := DB_VERSION |})
               else if (DB_VERSION <? version s)%N then
                 (Thrown "VersionError", s)
               else
                 (Normal tt,
                  {| db := Some Connection;
                     recordings := recordings s;
                     version := version s |})
           end.

(** The transaction over the object store: [this.db!.transaction(...)]
    throws when the store does not exist, which rejects the promise. *)
Definition with_store {A} (request : Request)
    (k : gmap string AudioRecording -> completion A * t) (s : t)
  : completion A * t :=
  match db s with
  | None => (Thrown "Database not initialized", s)
  | Some _ =>
      match recordings s, request with
      | None, _ => (Thrown "NotFoundError", s)
      | Some _, Failure e => (Thrown e, s)
      | Some m, Success => k m
      end
  end.

Definition saveRecording (recording : AudioRecording) (request : Request)
  : M t unit :=
  fun s => with_store request (fun m =>
    (Normal tt,
     {| db := db s; recordings := Some (<[id recording := recording]> m);
        version := version s |})) s.

(** The index on [createdAt] lists the records by ascending [createdAt],
    and by ascending key among equal ones.  IndexedDB compares string keys
    by their UTF-16 code units; for the identifiers of this program,
    ['recording_'] followed by digits, that is the order of [String.ltb]. *)
Definition index_compare (a b : AudioRecording) : Z :=
  if createdAt a <? createdAt b then -1
  else if createdAt b <? createdAt a then 1
  else if String.ltb (id b) (id a) then 1 else -1.

Definition index_getAll (m : gmap string AudioRecording) : list AudioRecording :=
  sort index_compare (map snd (map_to_list m)).

(** [(a, b) => new Date(b.createdAt).getTime() - new Date(a.createdAt).getTime()] *)
Definition newest_first (a b : AudioRecording) : Z :=
  createdAt b - createdAt a.

Definition getRecordings (request : Request) : M t (list AudioRecording) :=
  fun s => with_store request (fun m =>
    (Normal (sort newest_first (index_getAll m)), s)) s.

Definition deleteRecording (key : string) (request : Request) : M t unit :=
  fun s => with_store request (fun m =>
    (Normal tt, {| db := db s; recordings := Some (delete key m);
                   version := version s |})) s.

(** [request.result || null] *)
Definition getRecording (key : string) (request : Request)
  : M t (option AudioRecording) :=
  fun s => with_store request (fun m => (Normal (m !! key), s)) s.

(** A sequence of calls that change the storage. *)
Inductive Call :=
| Init (open : Request)
| Save (recording : AudioRecording) (request : Request)
| Delete (key : string) (request : Request).

Definition call (s : t) (c : Call) : t :=
  match c with
  | Init open => exec (init open) s
  | Save recording request => exec (saveRecording recording request) s
  | Delete key request => exec (deleteRecording key request) s
  end.

Definition calls (cs : list Call) (s : t) : t := fold_left call cs s.

(** [saveRecording] of each of [puts] in turn, every write succeeding. *)
Definition put_all (puts : list AudioRecording) (s : t) : t :=
  calls (map (fun recording => Save recording Success) puts) s.

(** The records of an object store. *)
Definition records (m : gmap string AudioRecording) : list AudioRecording :=
  (map_to_list m).*2.

(** Every key of the store is the [id] of its record. *)
Definition keyed (s : t) : Prop :=
  forall m k r, recordings s = Some m -> m !! k = Some r -> id r = k.

(** [init] has succeeded: the handle is there and the store exists and
    holds [m]. *)
Definition ready (s : t) (m : gmap string AudioRecording) : Prop :=
  db s = Some Connection /\ recordings s = Some m.

(** [a] is at least as new as [b]; [a] is newer than [b]. *)
Definition not_older (a b : AudioRecording) : Prop := createdAt b <= createdAt a.
Definition newer (a b : AudioRecording) : Prop := createdAt b < createdAt a.

End AudioStorage.

(** ** The media platform: streams and their tracks *)

Inductive TrackKind := audio | video.
Inductive ReadyState := live | ended.

#[global] Instance TrackKind_eq_dec : EqDecision TrackKind.
Proof. solve_decision. Defined.
#[global] Instance ReadyState_eq_dec : EqDecision ReadyState.
Proof. solve_decision. Defined.

Record MediaStreamTrack := mkTrack {
  kind : TrackKind;
  readyState : ReadyState;
}.

(** A [MediaStream] is the list of its tracks. *)
Abbreviation MediaStream := (list MediaStreamTrack).

(** What [navigator.mediaDevices.getUserMedia] does with a request. *)
Inductive UserMedia :=
| Resolve (tracks : MediaStream)
| Reject (error : string).

Module MediaDevices.
Import Js.

(** The streams opened so far; the handle of a stream is its index. *)
Abbreviation t := (list MediaStream).

Definition getUserMedia (outcome : UserMedia) : M t nat :=
  fun streams => match outcome with
                 | Resolve tracks => (Normal (length streams), streams ++ [tracks])
                 | Reject e => (Thrown e, streams)
                 end.

(** [track.stop()] *)
Definition stop (track : MediaStreamTrack) : MediaStreamTrack :=
  {| kind := kind track; readyState := ended |}.

(** [stream.getTracks().forEach(track => track.stop())] *)
Definition stopTracks (stream : nat) : M t unit :=
  modify (alter (map stop) stream).

(** [stream.getAudioTracks()] *)
Definition getAudioTracks (stream : MediaStream) : MediaStream :=
  filter (fun track => kind track = audio) stream.

(** [getUserMedia] gives a stream at most one track of each kind that
    the constraints ask for; the component only asks for audio. *)
Definition one_audio_track (outcome : UserMedia) : Prop :=
  match outcome with
  | Resolve tracks => (length (getAudioTracks tracks) <= 1)%nat
  | Reject _ => True
  end.

(** The stream has a live audio track. *)
Definition has_live_audio (tracks : MediaStream) : Prop :=
  exists track, track ∈ getAudioTracks tracks /\ readyState track = live.

(** Every track of the stream is stopped. *)
Definition released (stream : nat) (streams : t) : Prop :=
  exists tracks, streams !! stream = Some tracks /\
                 Forall (fun track => readyState track = ended) tracks.

End MediaDevices.

(** ** app/lib/audioDevices.ts *)

Module AudioDeviceManager.
Import Js MediaDevices.
Local Open Scope js_scope.

Definition is_live (track : MediaStreamTrack) : bool :=
  match readyState track with live => true | ended => false end.

Definition testDevice (deviceId : string) (outcome : UserMedia) : M MediaDevices.t bool :=
  try_catch
    (let* stream := getUserMedia outcome in
     let* tracks := gets (fun streams => default [] (streams !! stream)) in
     let audioTracks := getAudioTracks tracks in
     let isWorking :=
       (0 <? Z.of_nat (length audioTracks)) &&
       match audioTracks !! 0%nat with
       | Some track => is_live track
       | None => false
       end in
     stopTracks stream ;;
     ret isWorking)
    (fun error => ret false).

(** What [navigator.mediaDevices.enumerateDevices] lists. *)
Inductive MediaDeviceKind := audioinput | audiooutput | videoinput.

#[global] Instance MediaDeviceKind_eq_dec : EqDecision MediaDeviceKind.
Proof. solve_decision. Defined.

Record MediaDeviceInfo := mkMediaDeviceInfo {
  info_deviceId : string;
  info_kind : MediaDeviceKind;
  info_label : string;
  info_groupId : string;
}.

Inductive Enumeration :=
| Enumerated (devices : list MediaDeviceInfo)
| EnumerationFailed (error : string).

Definition enumerateDevices (enumeration : Enumeration)
  : M MediaDevices.t (list MediaDeviceInfo) :=
  fun streams => match enumeration with
                 | Enumerated devices => (Normal devices, streams)
                 | EnumerationFailed e => (Thrown e, streams)
                 end.

Record AudioDevice := mkAudioDevice {
  deviceId : string;
  label : string;
  groupId : string;
}.

(** [device.label || `Microphone ${device.deviceId.slice(0, 8)}`] *)
Definition label_of (device : MediaDeviceInfo) : string :=
  if truthy (info_label device) then info_label device
  else "Microphone " +:+ String.substring 0 8 (info_deviceId device).

Definition toAudioDevice (device : MediaDeviceInfo) : AudioDevice :=
  {| deviceId := info_deviceId device;
     label := label_of device;
     groupId := info_groupId device |}.

(** The stream that the permission request opens is not used again. *)
Definition getAudioInputDevices (permission : UserMedia) (enumeration : Enumeration)
  : M MediaDevices.t (list AudioDevice) :=
  try_catch
    (getUserMedia permission ;;
     let* devices := enumerateDevices enumeration in
     let audioInputs := filter (fun device => info_kind device = audioinput) devices in
     ret (map toAudioDevice audioInputs))
    (fun error => ret []).

(** [devices.length > 0 ? devices[0].deviceId : ''] *)
Definition first_deviceId (devices : list AudioDevice) : string :=
  match devices with
  | device :: _ => deviceId device
  | [] => ""
  end.

Definition getDefaultDevice (permission : UserMedia) (enumeration : Enumeration)
  : M MediaDevices.t string :=
  try_catch
    (let* devices := getAudioInputDevices permission enumeration in
     ret (first_deviceId devices))
    (fun error => ret "").

End AudioDeviceManager.

(** ** app/components/MicrophoneSelector.tsx *)

Module MicrophoneSelector.
Import Js AudioDeviceManager.
Local Open Scope js_scope.

(** [devices], [isLoading], [error]: the state cells of the component;
    [selectedDeviceId]: the cell of AudioRecorder that the component gets as
    a prop and sets through [onDeviceChange]; [streams]: the streams of the
    browser. *)
Record t := mk {
  devices : list AudioDevice;
  isLoading : bool;
  error : string;
  selectedDeviceId : string;
  streams : MediaDevices.t;
}.

Definition setDevices (d : list AudioDevice) : M t unit :=
  modify (fun s => mk d (isLoading s) (error s) (selectedDeviceId s) (streams s)).
Definition setIsLoading (b : bool) : M t unit :=
  modify (fun s => mk (devices s) b (error s) (selectedDeviceId s) (streams s)).
Definition setError (e : string) : M t unit :=
  modify (fun s => mk (devices s) (isLoading s) e (selectedDeviceId s) (streams s)).
Definition onDeviceChange (deviceId : string) : M t unit :=
  modify (fun s => mk (devices s) (isLoading s) (error s) deviceId (streams s)).
Definition media {A} (c : M MediaDevices.t A) : M t A :=
  fun s => let (r, st) := c (streams s) in
           (r, mk (devices s) (isLoading s) (error s) (selectedDeviceId s) st).

(** [audioDevices.find(d => d.deviceId === selectedDeviceId)] is defined. *)
Definition listed (deviceId' : string) (audioDevices : list AudioDevice) : bool :=
  bool_decide (deviceId' ∈ deviceId <$> audioDevices).

(** [loadDevices] of a render whose prop [selectedDeviceId] is [selected]. *)
Definition loadDevices (selected : string) (permission : UserMedia)
    (enumeration : Enumeration) : M t unit :=
  try_finally
    (try_catch
       (setIsLoading true ;;
        setError "" ;;
        let* audioDevices := media (getAudioInputDevices permission enumeration) in
        setDevices audioDevices ;;
        when (negb (truthy selected) && (0 <? Z.of_nat (length audioDevices)))
          (onDeviceChange (first_deviceId audioDevices)) ;;
        when (truthy selected && negb (listed selected audioDevices)
              && (0 <? Z.of_nat (length audioDevices)))
          (onDeviceChange (first_deviceId audioDevices)))
       (fun err => setError "Failed to load microphone devices"))
    (setIsLoading false).

(** [handleDeviceSelect] of a render whose prop [disabled] is [disabled]. *)
Definition handleDeviceSelect (disabled : bool) (deviceId : string)
    (outcome : UserMedia) : M t unit :=
  if disabled then ret tt
  else
    try_catch
      (setError "" ;;
       let* isWorking := media (testDevice deviceId outcome) in
       if isWorking then onDeviceChange deviceId
       else setError "Selected microphone is not working properly")
      (fun err => setError "Failed to switch to selected microphone").

End MicrophoneSelector.

(** ** The capture pipeline: [MediaRecorder] *)

Inductive RecorderState := inactive | recording | paused.

#[global] Instance RecorderState_eq_dec : EqDecision RecorderState.
Proof. solve_decision. Defined.

(** A recorder as [startRecording] sets it up.  Its [onstop] handler is a
    closure: it holds the [stream] and the [recordingState] that were in
    scope where it was written, that is, the state of the render whose
    [startRecording] ran.  [stop_pending] says that [stop()] was called and
    the [stop] event has not fired yet. *)
Record MediaRecorder := mkMediaRecorder {
  state : RecorderState;
  stop_pending : bool;
  recorder_mimeType : string;
  onstop_stream : nat;
  onstop_recordingState : RecordingState;
}.

(** The three readings of the clock that [onstop] makes: [Date.now()],
    [new Date().toLocaleString()] and [new Date()]. *)
Record Clock := mkClock {
  Date_now : Z;
  toLocaleString : string;
  new_Date : Z;
}.

(** ** app/components/AudioRecorder.tsx (with the state of app/page.tsx) *)

Module AudioRecorder.
Import Js.
Local Open Scope js_scope.

(** - [recordingState], [error], [permissionGranted]: the [useState] cells,
      at their latest value;
    - [timerRef], [chunksRef]: the [useRef] cells;
    - [awaiting]: the calls of [startRecording] that are suspended at
      [await getUserMedia], oldest first, each with the [recordingState] of
      its closure;
    - [streams], [recorders], [intervals]: the platform objects; an
      interval is in [intervals] from [setInterval] to [clearInterval];
      [streams] holds every stream that the page opens, those of the
      [MicrophoneSelector] that the component renders among them;
    - [audioStorage]: the singleton of audioStorage.ts;
    - [recordings]: the list that page.tsx keeps, which
      [onRecordingComplete] extends.

    The cell [selectedDeviceId] only picks the constraints that are passed
    to [getUserMedia], whose outcome is a parameter here; it is left out,
    and the cells of the selector are in [MicrophoneSelector.t]. *)
Record World := mkWorld {
  recordingState : RecordingState;
  error : string;
  permissionGranted : bool;
  timerRef : option positive;
  chunksRef : list Blob;
  awaiting : list RecordingState;
  streams : list MediaStream;
  recorders : list MediaRecorder;
  intervals : gset positive;
  next_interval : positive;
  audioStorage : AudioStorage.t;
  recordings : list AudioRecording;
}.

Definition set_recordingState (f : RecordingState -> RecordingState) (w : World) : World :=
  mkWorld (f (recordingState w)) (error w) (permissionGranted w) (timerRef w)
    (chunksRef w) (awaiting w) (streams w) (recorders w) (intervals w)
    (next_interval w) (audioStorage w) (recordings w).
Definition set_error (e : string) (w : World) : World :=
  mkWorld (recordingState w) e (permissionGranted w) (timerRef w)
    (chunksRef w) (awaiting w) (streams w) (recorders w) (intervals w)
    (next_interval w) (audioStorage w) (recordings w).
Definition set_permissionGranted (b : bool) (w : World) : World :=
  mkWorld (recordingState w) (error w) b (timerRef w)
    (chunksRef w) (awaiting w) (streams w) (recorders w) (intervals w)
    (next_interval w) (audioStorage w) (recordings w).
Definition set_timerRef (t : option positive) (w : World) : World :=
  mkWorld (recordingState w) (error w) (permissionGranted w) t
    (chunksRef w) (awaiting w) (streams w) (recorders w) (intervals w)
    (next_interval w) (audioStorage w) (recordings w).
Definition set_chunksRef (f : list Blob -> list Blob) (w : World) : World :=
  mkWorld (recordingState w) (error w) (permissionGranted w) (timerRef w)
    (f (chunksRef w)) (awaiting w) (streams w) (recorders w) (intervals w)
    (next_interval w) (audioStorage w) (recordings w).
Definition set_awaiting (f : list RecordingState -> list RecordingState) (w : World) : World :=
  mkWorld (recordingState w) (error w) (permissionGranted w) (timerRef w)
    (chunksRef w) (f (awaiting w)) (streams w) (recorders w) (intervals w)
    (next_interval w) (audioStorage w) (recordings w).
Definition set_streams (s : list MediaStream) (w : World) : World :=
  mkWorld (recordingState w) (error w) (permissionGranted w) (timerRef w)
    (chunksRef w) (awaiting w) s (recorders w) (intervals w)
    (next_interval w) (audioStorage w) (recordings w).
Definition set_recorders (f : list MediaRecorder -> list MediaRecorder) (w : World) : World :=
  mkWorld (recordingState w) (error w) (permissionGranted w) (timerRef w)
    (chunksRef w) (awaiting w) (streams w) (f (recorders w)) (intervals w)
    (next_interval w) (audioStorage w) (recordings w).
Definition set_intervals (f : gset positive -> gset positive) (w : World) : World :=
  mkWorld (recordingState w) (error w) (permissionGranted w) (timerRef w)
    (chunksRef w) (awaiting w) (streams w) (recorders w) (f (intervals w))
    (next_interval w) (audioStorage w) (recordings w).
Definition set_next_interval (n : positive) (w : World) : World :=
  mkWorld (recordingState w) (error w) (permissionGranted w) (timerRef w)
    (chunksRef w) (awaiting w) (streams w) (recorders w) (intervals w)
    n (audioStorage w) (recordings w).
Definition set_audioStorage (s : AudioStorage.t) (w : World) : World :=
  mkWorld (recordingState w) (error w) (permissionGranted w) (timerRef w)
    (chunksRef w) (awaiting w) (streams w) (recorders w) (intervals w)
    (next_interval w) s (recordings w).
Definition set_recordings (f : list AudioRecording -> list AudioRecording) (w : World) : World :=
  mkWorld (recordingState w) (error w) (permissionGranted w) (timerRef w)
    (chunksRef w) (awaiting w) (streams w) (recorders w) (intervals w)
    (next_interval w) (audioStorage w) (f (recordings w)).

(** Calls into the media devices and into the storage act on their part
    of the world. *)
Definition media {A} (c : M MediaDevices.t A) : M World A :=
  fun w => let (r, s) := c (streams w) in (r, set_streams s w).
Definition storage {A} (c : M AudioStorage.t A) : M World A :=
  fun w => let (r, s) := c (audioStorage w) in (r, set_audioStorage s w).

(** *** React setters *)

Definition setRecordingState (f : RecordingState -> RecordingState) : M World unit :=
  modify (set_recordingState f).
Definition setError (e : string) : M World unit := modify (set_error e).
Definition setPermissionGranted (b : bool) : M World unit :=
  modify (set_permissionGranted b).

(** *** Timers *)

Definition setInterval : M World positive :=
  fun w => (Normal (next_interval w),
            set_next_interval (Pos.succ (next_interval w))
              (set_intervals (fun s => {[next_interval w]} ∪ s) w)).

Definition clearInterval (t : positive) : M World unit :=
  modify (set_intervals (fun s => s ∖ {[t]})).

(** [if (timerRef.current) { clearInterval(timerRef.current); }] *)
Definition clear_timerRef : M World unit :=
  let* t := gets timerRef in
  match t with
  | Some t => clearInterval t
  | None => ret tt
  end.

(** The callback given to [setInterval], in [startRecording] and in
    [resumeRecording]:
    [setRecordingState(prev => ({...prev, recordingTime: prev.recordingTime + 1}))] *)
Definition tick_update (prev : RecordingState) : RecordingState :=
  {| isRecording := isRecording prev; isPaused := isPaused prev;
     recordingTime := recordingTime prev + 1;
     mediaRecorder := mediaRecorder prev; audioStream := audioStream prev |}.

(** [n] seconds more. *)
Definition elapse (n : Z) (prev : RecordingState) : RecordingState :=
  {| isRecording := isRecording prev; isPaused := isPaused prev;
     recordingTime := recordingTime prev + n;
     mediaRecorder := mediaRecorder prev; audioStream := audioStream prev |}.

(** The timer [t] fires, if it is still set. *)
Definition tick (t : positive) : M World unit :=
  let* active := gets (fun w => bool_decide (t ∈ intervals w)) in
  when active (setRecordingState tick_update).

(** *** Methods of [MediaRecorder] *)

Definition set_state (s : RecorderState) (pending : bool) (r : MediaRecorder) : MediaRecorder :=
  mkMediaRecorder s pending (recorder_mimeType r) (onstop_stream r)
    (onstop_recordingState r).

Definition recorder_state (r : nat) : M World RecorderState :=
  gets (fun w => default inactive (state <$> recorders w !! r)).

(** [new MediaRecorder(stream)] followed by the assignment of its handlers *)
Definition new_MediaRecorder (stream : nat) (mime : string)
    (closure : RecordingState) : M World nat :=
  fun w => (Normal (length (recorders w)),
            set_recorders (fun rs => rs ++ [mkMediaRecorder inactive false mime stream closure]) w).

(** [start()] throws unless the recorder is inactive. *)
Definition recorder_start (r : nat) : M World unit :=
  let* s := recorder_state r in
  match s with
  | inactive => modify (set_recorders (alter (set_state recording false) r))
  | _ => throw "InvalidStateError"
  end.

(** [stop()] does nothing on an inactive recorder; otherwise the recorder
    becomes inactive and will fire [dataavailable] and then [stop]. *)
Definition recorder_stop (r : nat) : M World unit :=
  let* s := recorder_state r in
  match s with
  | inactive => ret tt
  | _ => modify (set_recorders (alter (set_state inactive true) r))
  end.

(** [pause()] and [resume()] throw on an inactive recorder. *)
Definition recorder_pause (r : nat) : M World unit :=
  let* s := recorder_state r in
  match s with
  | inactive => throw "InvalidStateError"
  | _ => modify (set_recorders (alter (set_state paused false) r))
  end.

Definition recorder_resume (r : nat) : M World unit :=
  let* s := recorder_state r in
  match s with
  | inactive => throw "InvalidStateError"
  | _ => modify (set_recorders (alter (set_state recording false) r))
  end.

(** *** The functions of the component

    A function written in the body of the component sees the state cells
    as the render that created it bound them, also when it runs later.
    [Render] holds those bindings. *)
Record Render := mkRender {
  render_recordingState : RecordingState;
  render_permissionGranted : bool;
}.

(** The latest render. *)
Definition render (w : World) : Render :=
  {| render_recordingState := recordingState w;
     render_permissionGranted := permissionGranted w |}.

Definition requestMicrophonePermission (outcome : UserMedia) : M World unit :=
  try_catch
    (let* stream := media (MediaDevices.getUserMedia outcome) in
     setPermissionGranted true ;;
     media (MediaDevices.stopTracks stream) ;;
     setError "")
    (fun err =>
       setPermissionGranted false ;;
       setError "Microphone permission is required to record audio.").

(** [ondataavailable] *)
Definition ondataavailable (data : Blob) : M World unit :=
  when (0 <? blob_size data) (modify (set_chunksRef (fun chunks => chunks ++ [data]))).

(** The recording that [onstop] builds. *)
Definition assemble (chunks : list Blob) (duration : Z) (mime : string)
    (clock : Clock) : AudioRecording :=
  {| id := "recording_" +:+ pretty (Date_now clock);
     name := "Recording " +:+ toLocaleString clock;
     blob := new_Blob chunks mime;
     duration := duration;
     createdAt := new_Date clock;
     mimeType := mime |}.

(** [handleRecordingComplete] of page.tsx:
    [setRecordings(prev => [newRecording, ...prev])] *)
Definition onRecordingComplete (recording : AudioRecording) : M World unit :=
  modify (set_recordings (fun prev => recording :: prev)).

Definition idle_update (prev : RecordingState) : RecordingState :=
  {| isRecording := false; isPaused := false; recordingTime := 0;
     mediaRecorder := None; audioStream := None |}.

(** [onstop] of the recorder [r].  [request] is the outcome of the write
    that [saveRecording] makes; the handler is taken in one piece, from the
    [stop] event to the end of its cleanup. *)
Definition onstop (r : MediaRecorder) (clock : Clock)
    (request : AudioStorage.Request) : M World unit :=
  let* chunks := gets chunksRef in
  let duration := recordingTime (onstop_recordingState r) in
  let recording := assemble chunks duration (recorder_mimeType r) clock in
  try_catch
    (storage (AudioStorage.saveRecording recording request) ;;
     onRecordingComplete recording)
    (fun err => setError "Failed to save recording") ;;
  media (MediaDevices.stopTracks (onstop_stream r)) ;;
  setRecordingState idle_update ;;
  clear_timerRef.

(** [startRecording], up to [await getUserMedia(constraints)].  When the
    render has [permissionGranted] false, the function asks for the
    permission and then tests the same binding again, so it returns. *)
Definition startRecording (closure : Render) (permission : UserMedia) : M World unit :=
  if negb (render_permissionGranted closure) then
    requestMicrophonePermission permission
  else
    modify (set_awaiting (fun calls => calls ++ [render_recordingState closure])).

Definition started_update (recorder stream : nat) (prev : RecordingState) : RecordingState :=
  {| isRecording := true; isPaused := false;
     recordingTime := recordingTime prev;
     mediaRecorder := Some recorder; audioStream := Some stream |}.

(** [startRecording], from the point where [getUserMedia] settles.
    [closure] is the [recordingState] of the render whose [startRecording]
    this is; [mime] is the type the new recorder picks. *)
Definition startRecording_resumed (closure : RecordingState)
    (outcome : UserMedia) (mime : string) : M World unit :=
  try_catch
    (let* stream := media (MediaDevices.getUserMedia outcome) in
     let* recorder := new_MediaRecorder stream mime closure in
     modify (set_chunksRef (fun _ => [])) ;;
     recorder_start recorder ;;
     let* timer := setInterval in
     modify (set_timerRef (Some timer)) ;;
     setRecordingState (started_update recorder stream) ;;
     setError "")
    (fun err =>
       setError "Failed to start recording. Please check microphone permissions.").

Definition stopRecording (closure : Render) : M World unit :=
  match mediaRecorder (render_recordingState closure) with
  | Some recorder =>
      when (isRecording (render_recordingState closure)) (recorder_stop recorder)
  | None => ret tt
  end.

Definition paused_update (b : bool) (prev : RecordingState) : RecordingState :=
  {| isRecording := isRecording prev; isPaused := b;
     recordingTime := recordingTime prev;
     mediaRecorder := mediaRecorder prev; audioStream := audioStream prev |}.

Definition pauseRecording (closure : Render) : M World unit :=
  match mediaRecorder (render_recordingState closure) with
  | Some recorder =>
      when (isRecording (render_recordingState closure))
        (recorder_pause recorder ;;
         setRecordingState (paused_update true) ;;
         clear_timerRef)
  | None => ret tt
  end.

Definition resumeRecording (closure : Render) : M World unit :=
  match mediaRecorder (render_recordingState closure) with
  | Some recorder =>
      when (isPaused (render_recordingState closure))
        (recorder_resume recorder ;;
         setRecordingState (paused_update false) ;;
         let* timer := setInterval in
         modify (set_timerRef (Some timer)))
  | None => ret tt
  end.

(** The cleanup of the mount effect.  The effect has no dependencies, so
    the function is the one of the first render; [closure] is that
    render. *)
Definition unmount (closure : Render) : M World unit :=
  clear_timerRef ;;
  match audioStream (render_recordingState closure) with
  | Some stream => media (MediaDevices.stopTracks stream)
  | None => ret tt
  end.

(** [formatTime]: [Math.floor(seconds / 60)] and [seconds % 60], each
    padded to two digits. *)
Definition formatTime (seconds : Z) : string :=
  padStart 2 "0"%char (pretty (seconds `div` 60)) +:+ ":" +:+
  padStart 2 "0"%char (pretty (Z.rem seconds 60)).

(** *** What the component renders *)

(** [pauseRecording] sets [isPaused] and leaves [isRecording] set: the
    component is paused when both hold, and records when [isRecording]
    holds alone. *)
Inductive Phase := Idle | Recording | Paused.

Definition phase (s : RecordingState) : Phase :=
  if isRecording s then (if isPaused s then Paused else Recording)
  else Idle.

Inductive Button :=
| StartButton | PauseButton | StopButton | ResumeButton | RetryButton.

(** The button is in the page and can be clicked. *)
Definition offered (b : Button) (w : World) : bool :=
  let s := recordingState w in
  match b with
  | StartButton =>
      negb (isRecording s) && negb (isPaused s) && permissionGranted w
  | PauseButton => isRecording s && negb (isPaused s)
  | StopButton => (isRecording s && negb (isPaused s)) || isPaused s
  | ResumeButton => isPaused s
  | RetryButton =>
      negb (bool_decide (error w = "")) && negb (permissionGranted w)
  end.

(** The prop [disabled] of the selector:
    [recordingState.isRecording || recordingState.isPaused]. *)
Definition disabled (w : World) : bool :=
  isRecording (recordingState w) || isPaused (recordingState w).

(** The handlers of the buttons are those of the latest render. *)
Definition onClick (b : Button) (permission : UserMedia) (w : World) : M World unit :=
  match b with
  | StartButton => startRecording (render w) permission
  | PauseButton => pauseRecording (render w)
  | StopButton => stopRecording (render w)
  | ResumeButton => resumeRecording (render w)
  | RetryButton => requestMicrophonePermission permission
  end.

(** *** Events

    - [Mounted]: the permission request of the mount effect settles;
    - [StorageOpened]: [audioStorage.init()] of page.tsx settles;
    - [Click b permission]: a click on [b]; [permission] is the outcome of
      the permission request, if the handler makes one;
    - [UserMediaSettled]: the oldest suspended [startRecording] goes on;
    - [Tick t]: the interval [t] fires;
    - [DataAvailable r data], [Stopped r clock request]: the recorder [r]
      fires [dataavailable], [stop];
    - [DevicesLoaded permission enumeration]: [loadDevices] of the selector
      runs, at its mount, on [devicechange] or on a click on Refresh, and
      calls [getAudioInputDevices];
    - [DeviceSelected deviceId outcome]: a device is picked in the select
      box, and [handleDeviceSelect] tests it unless the selector is
      disabled. *)
Inductive Event :=
| Mounted (permission : UserMedia)
| StorageOpened (open : AudioStorage.Request)
| Click (b : Button) (permission : UserMedia)
| UserMediaSettled (outcome : UserMedia) (mime : string)
| Tick (t : positive)
| DataAvailable (r : nat) (data : Blob)
| Stopped (r : nat) (clock : Clock) (request : AudioStorage.Request)
| DevicesLoaded (permission : UserMedia) (enumeration : AudioDeviceManager.Enumeration)
| DeviceSelected (deviceId : string) (outcome : UserMedia).

Definition handle (e : Event) : M World unit :=
  match e with
  | Mounted permission => requestMicrophonePermission permission
  | StorageOpened open => storage (AudioStorage.init open)
  | Click b permission =>
      fun w => if offered b w then onClick b permission w w else (Normal tt, w)
  | UserMediaSettled outcome mime =>
      let* calls := gets awaiting in
      match calls with
      | [] => ret tt
      | closure :: rest =>
          modify (set_awaiting (fun _ => rest)) ;;
          startRecording_resumed closure outcome mime
      end
  | Tick t => tick t
  | DataAvailable r data =>
      let* rec := gets (fun w => recorders w !! r) in
      match rec with
      | Some rec =>
          when (negb (bool_decide (state rec = inactive)) || stop_pending rec)
            (ondataavailable data)
      | None => ret tt
      end
  | Stopped r clock request =>
      let* rec := gets (fun w => recorders w !! r) in
      match rec with
      | Some rec =>
          when (stop_pending rec)
            (modify (set_recorders (alter (set_state inactive false) r)) ;;
             onstop rec clock request)
      | None => ret tt
      end
  | DevicesLoaded permission enumeration =>
      media (AudioDeviceManager.getAudioInputDevices permission enumeration) ;;
      ret tt
  | DeviceSelected deviceId outcome =>
      fun w => if disabled w then (Normal tt, w)
               else (media (AudioDeviceManager.testDevice deviceId outcome) ;;
                     ret tt) w
  end.

(** An exception that leaves a handler is reported and the page goes on. *)
Definition step (w : World) (e : Event) : World := exec (handle e) w.

Definition run (es : list Event) (w : World) : World := fold_left step es w.

(** *** Vocabulary of the properties *)

(** The recorder and the stream that the state names exist, they belong
    together, and the recorder runs or is about to fire [stop]. *)
Definition session_open (w : World) (r stream : nat) : Prop :=
  mediaRecorder (recordingState w) = Some r /\
  audioStream (recordingState w) = Some stream /\
  exists rec, recorders w !! r = Some rec /\
              onstop_stream rec = stream /\
              (state rec <> inactive \/ stop_pending rec = true).

(** What holds in every state that the events lead to: the stream of every
    recorder exists, a session is open whenever [isRecording] is set, and
    [isPaused] is only set together with [isRecording]. *)
Definition consistent (w : World) : Prop :=
  (forall r rec, recorders w !! r = Some rec ->
                 is_Some (streams w !! onstop_stream rec)) /\
  (isRecording (recordingState w) = true -> exists r stream, session_open w r stream) /\
  (isPaused (recordingState w) = true -> isRecording (recordingState w) = true).

(** The state names a recorder and a stream exactly when [isRecording]
    is set. *)
Definition handles_match (s : RecordingState) : Prop :=
  (isRecording s = true -> is_Some (mediaRecorder s) /\ is_Some (audioStream s)) /\
  (isRecording s = false ->
   mediaRecorder s = None /\ audioStream s = None /\ isPaused s = false).

(** The recorder [r] was stopped and its [stop] event is still to come. *)
Definition stopping (w : World) (r stream : nat) : Prop :=
  is_Some (streams w !! stream) /\
  exists rec, recorders w !! r = Some rec /\
              onstop_stream rec = stream /\
              state rec = inactive /\
              stop_pending rec = true.

(** Any event but the [stop] event of the recorder [r]. *)
Definition before_stop_of (r : nat) (e : Event) : Prop :=
  match e with
  | Stopped r' _ _ => r' <> r
  | _ => True
  end.

(** The recorder delivers the chunks [datas], one event each. *)
Definition deliver (r : nat) (datas : list Blob) : list Event :=
  map (DataAvailable r) datas.

(** The component before its first effect. *)
Definition initial (store : option (gmap string AudioRecording)) : World :=
  {| recordingState :=
       {| isRecording := false; isPaused := false; recordingTime := 0;
          mediaRecorder := None; audioStream := None |};
     error := "";
     permissionGranted := false;
     timerRef := None;
     chunksRef := [];
     awaiting := [];
     streams := [];
     recorders := [];
     intervals := ∅;
     next_interval := 1%positive;
     audioStorage := AudioStorage.new store;
     recordings := [] |}.

End AudioRecorder.

(** ** app/page.tsx, and [deleteRecording] of RecordingsList.tsx *)

Module Home.
Import Js.
Local Open Scope js_scope.

(** - [recordings], [isLoading]: the [useState] cells of [Home];
      [recordings] is the prop of [RecordingsList];
    - [audioRefs]: the [useRef] cell of [RecordingsList], as the set of the
      identifiers that have an audio element;
    - [audioStorage]: the singleton of audioStorage.ts.

    The calls of [track] and of [console.error] report and change nothing
    here; they are left out. *)
Record t := mk {
  recordings : list AudioRecording;
  isLoading : bool;
  audioRefs : gset string;
  audioStorage : AudioStorage.t;
}.

Definition setRecordings (f : list AudioRecording -> list AudioRecording) : M t unit :=
  modify (fun s => mk (f (recordings s)) (isLoading s) (audioRefs s) (audioStorage s)).
Definition setIsLoading (b : bool) : M t unit :=
  modify (fun s => mk (recordings s) b (audioRefs s) (audioStorage s)).
Definition storage {A} (c : M AudioStorage.t A) : M t A :=
  fun s => let (r, st) := c (audioStorage s) in
           (r, mk (recordings s) (isLoading s) (audioRefs s) st).

(** [loadRecordings]; [request] is the outcome of the read. *)
Definition loadRecordings (request : AudioStorage.Request) : M t unit :=
  try_catch
    (let* savedRecordings := storage (AudioStorage.getRecordings request) in
     setRecordings (fun _ => savedRecordings))
    (fun error => ret tt).

Definition initializeStorage (open request : AudioStorage.Request) : M t unit :=
  try_finally
    (try_catch
       (storage (AudioStorage.init open) ;;
        loadRecordings request)
       (fun error => ret tt))
    (setIsLoading false).

Definition handleRecordingComplete (newRecording : AudioRecording) : M t unit :=
  setRecordings (fun prev => newRecording :: prev).

Definition handleRecordingsChange (request : AudioStorage.Request) : M t unit :=
  loadRecordings request.

(** [deleteRecording] of [RecordingsList]: [confirmed] is the answer to
    [confirm], [request] the outcome of the deletion and [reload] that of
    the read that [onRecordingsChange] makes. *)
Definition deleteRecording (confirmed : bool) (recordingId : string)
    (request reload : AudioStorage.Request) : M t unit :=
  when confirmed
    (try_catch
       (storage (AudioStorage.deleteRecording recordingId request) ;;
        modify (fun s => mk (recordings s) (isLoading s)
                           (audioRefs s ∖ {[recordingId]}) (audioStorage s)) ;;
        handleRecordingsChange reload)
       (fun error => ret tt)).

(** The list of the page shows the store. *)
Definition in_sync (s : t) (m : gmap string AudioRecording) : Prop :=
  AudioStorage.ready (audioStorage s) m /\
  recordings s = sort AudioStorage.newest_first (AudioStorage.index_getAll m).

End Home.

(** ** Concrete runs *)

Module Scenario.
Import AudioRecorder.

Definition microphone : UserMedia := Resolve [mkTrack audio live].
Definition webm : string := "audio/webm".
Definition chunk (n : nat) : Blob := mkBlob (repeat x00 n) webm.
Definition clock : Clock :=
  {| Date_now := 1700000000000;
     toLocaleString := "11/14/2023, 10:13:20 PM";
     new_Date := 1700000000000 |}.

(** The page has loaded: the storage is open and the permission granted. *)
Definition loaded : list Event :=
  [StorageOpened AudioStorage.Success; Mounted microphone].

(** A click on Start, and the stream arrives. *)
Definition start : list Event :=
  [Click StartButton microphone; UserMediaSettled microphone webm].

(** Recorder [r] is stopped and fires [stop]; the write succeeds. *)
Definition stop (r : nat) (c : Clock) : list Event :=
  [Click StopButton microphone; Stopped r c AudioStorage.Success].

(** Two clicks on Start before the first stream arrives. *)
Definition double_start : list Event :=
  [Click StartButton microphone; Click StartButton microphone;
   UserMediaSettled microphone webm; UserMediaSettled microphone webm].

(** A recording of [n] seconds, up to the click on Stop. *)
Definition seconds (n : nat) : list Event :=
  loaded ++ start ++ repeat (Tick 1) n.

End Scenario.

(** * Properties *)

(** ** [Array.prototype.sort] *)

Section SortFacts.
Import Js.
Context {A : Type} (compare : A -> A -> Z).
Local Abbreviation before := (Js.before compare).

Hypothesis compare_total : forall a b, before a b \/ before b a.
Hypothesis compare_trans : forall a b c, before a b -> before b c -> before a c.

Lemma sort_insert_Permutation x l : Js.sort_insert compare x l ≡ₚ x :: l.
Proof.
  induction l as [|y l IH]; simpl; [done|].
  destruct (compare x y <=? 0); [done|].
  rewrite IH. apply perm_swap.
Qed.

Lemma sort_Permutation l : Js.sort compare l ≡ₚ l.
Proof.
  induction l as [|x l IH]; simpl; [done|].
  rewrite sort_insert_Permutation. by rewrite IH.
Qed.

Lemma sort_insert_HdRel a x l :
  before a x -> HdRel before a l -> HdRel before a (Js.sort_insert compare x l).
Proof.
  intros Hax Hal. destruct l as [|y l]; simpl; [by constructor|].
  destruct (compare x y <=? 0); constructor; [done|].
  by inversion Hal.
Qed.

Lemma sort_insert_Sorted x l :
  Sorted before l -> Sorted before (Js.sort_insert compare x l).
Proof.
  induction 1 as [|y l Hl IH Hy]; simpl; [by repeat constructor|].
  destruct (compare x y <=? 0) eqn:Hxy.
  - apply Z.leb_le in Hxy. by repeat constructor.
  - apply Z.leb_gt in Hxy. constructor; [done|].
    apply sort_insert_HdRel; [|done].
    destruct (compare_total x y) as [Hb|Hb]; [unfold before in Hb; lia|done].
Qed.

Lemma sort_Sorted l : Sorted before (Js.sort compare l).
Proof.
  induction l as [|x l IH]; simpl; [constructor|by apply sort_insert_Sorted].
Qed.

Lemma sort_StronglySorted l : StronglySorted before (Js.sort compare l).
Proof.
  apply Sorted_StronglySorted; [|apply sort_Sorted].
  intros a b c. apply compare_trans.
Qed.
End SortFacts.

(** ** The storage *)

Section StorageFacts.
Import Js AudioStorage.

Lemma newest_first_sorted l : StronglySorted not_older (sort newest_first l).
Proof.
  assert (StronglySorted (before newest_first) (sort newest_first l)) as Hs.
  { apply sort_StronglySorted.
    - intros a b. unfold before, newest_first. lia.
    - intros a b c. unfold before, newest_first. lia. }
  induction Hs as [|a l' Hs IH Ha]; constructor; [done|].
  eapply Forall_impl; [exact Ha|].
  intros b. unfold before, newest_first, not_older. lia.
Qed.

(** Without equal creation times the order is strict. *)
Lemma not_older_strict l :
  NoDup (createdAt <$> l) -> StronglySorted not_older l -> StronglySorted newer l.
Proof.
  induction l as [|a l IH]; intros Hnd Hs; [constructor|].
  apply StronglySorted_inv in Hs as [Hs Ha].
  apply NoDup_cons in Hnd as [Hnotin Hnd].
  constructor; [by apply IH|].
  rewrite Forall_forall in Ha |- *. intros b Hb.
  assert (createdAt b <> createdAt a) as Hne.
  { intros Heq. apply Hnotin. rewrite <- Heq.
    by apply list_elem_of_fmap_2. }
  specialize (Ha b Hb). unfold not_older in Ha. unfold newer. lia.
Qed.

Lemma index_getAll_Permutation m : index_getAll m ≡ₚ records m.
Proof. unfold index_getAll. apply sort_Permutation. Qed.

Lemma getRecordings_ready s m request :
  db s = Some Connection -> recordings s = Some m ->
  getRecordings request s =
    match request with
    | Success => (Normal (sort newest_first (index_getAll m)), s)
    | Failure e => (Thrown e, s)
    end.
Proof.
  intros Hdb Hm. unfold getRecordings, with_store. rewrite Hdb, Hm.
  by destruct request.
Qed.

Lemma keyed_new : keyed (new None).
Proof. intros m k r [=]. Qed.

Lemma keyed_init s open : keyed s -> keyed (exec (init open) s).
Proof.
  intros Hs. destruct open as [|e]; [|done]. unfold exec, init.
  destruct (version s <? DB_VERSION)%N; [|by destruct (DB_VERSION <? version s)%N].
  intros m k r [= <-] Hk. destruct (recordings s) as [m|] eqn:Hm; simpl in Hk.
  - by eapply Hs.
  - by rewrite lookup_empty in Hk.
Qed.

Lemma keyed_saveRecording s recording request :
  keyed s -> keyed (exec (saveRecording recording request) s).
Proof.
  intros Hs. unfold exec, saveRecording, with_store.
  destruct (db s); [|done].
  destruct (recordings s) as [m|] eqn:Hm; [|done].
  destruct request; [|by simpl].
  intros m' k r [= <-] Hk.
  destruct (decide (id recording = k)) as [<-|Hne].
  - rewrite lookup_insert_eq in Hk. by injection Hk as <-.
  - rewrite lookup_insert_ne in Hk by done. by eapply Hs.
Qed.

Lemma keyed_deleteRecording s key request :
  keyed s -> keyed (exec (deleteRecording key request) s).
Proof.
  intros Hs. unfold exec, deleteRecording, with_store.
  destruct (db s); [|done].
  destruct (recordings s) as [m|] eqn:Hm; [|done].
  destruct request; [|by simpl].
  intros m' k r [= <-] Hk.
  apply lookup_delete_Some in Hk as [_ Hk]. by eapply Hs.
Qed.
End StorageFacts.

Section StorageTheorems.
Import Js AudioStorage.

Lemma call_Save_ready s m recording :
  db s = Some Connection -> recordings s = Some m ->
  call s (Save recording Success) =
    {| db := Some Connection; recordings := Some (<[id recording := recording]> m);
       version := version s |}.
Proof.
  intros Hdb Hm. unfold call, exec, saveRecording, with_store.
  by rewrite Hdb, Hm.
Qed.

Lemma put_all_ready puts : forall s m,
  db s = Some Connection -> recordings s = Some m ->
  db (put_all puts s) = Some Connection /\ is_Some (recordings (put_all puts s)).
Proof.
  induction puts as [|r puts IH]; intros s m Hdb Hm; [by eauto|].
  change (put_all (r :: puts) s) with (put_all puts (call s (Save r Success))).
  rewrite (call_Save_ready _ m) by done.
  by eapply IH.
Qed.

(** C5.  Whatever the store holds and in whatever order recordings are
    put, [getRecordings] returns the recordings of the store, each one
    once, the newest first: no recording stands before a newer one, each
    recording is newer than the next when no two were created at the same
    time, and the result is empty when the store is. *)
Theorem getRecordings_newest_first (s : AudioStorage.t) (m0 : gmap string AudioRecording)
    (puts : list AudioRecording) :
  db s = Some Connection ->
  recordings s = Some m0 ->
  let s' := put_all puts s in
  exists m l,
    recordings s' = Some m /\
    getRecordings Success s' = (Normal l, s') /\
    l ≡ₚ records m /\
    StronglySorted not_older l /\
    (NoDup (createdAt <$> l) -> StronglySorted newer l) /\
    (m = ∅ -> l = []).
Proof.
  intros Hdb Hm0 s'.
  destruct (put_all_ready puts s m0 Hdb Hm0) as [Hdb' [m Hm]].
  exists m, (sort newest_first (index_getAll m)).
  split; [done|]. split; [by rewrite (getRecordings_ready _ m)|].
  assert (sort newest_first (index_getAll m) ≡ₚ records m) as Hperm.
  { rewrite sort_Permutation. apply index_getAll_Permutation. }
  split; [done|]. split; [apply newest_first_sorted|].
  split; [intros Hnd; apply not_older_strict; [done|apply newest_first_sorted]|].
  intros ->. apply Permutation_nil_r. rewrite Hperm.
  unfold records. by rewrite map_to_list_empty.
Qed.

Lemma getRecordings_newest_first_witness :
  let a := mkAudioRecording "r1" "A" (mkBlob [] "") 5 100 "" in
  let b := mkAudioRecording "r2" "B" (mkBlob [] "") 3 200 "" in
  let s := exec (init Success) (new None) in
  db s = Some Connection /\
  recordings s = Some ∅ /\
  let s' := put_all [a; b] s in
  exists m l,
    recordings s' = Some m /\
    getRecordings Success s' = (Normal l, s') /\
    l ≡ₚ records m /\
    StronglySorted not_older l /\
    (NoDup (createdAt <$> l) -> StronglySorted newer l) /\
    (m = ∅ -> l = []).
Proof.
  intros a b s. split; [reflexivity|]. split; [reflexivity|].
  exact (getRecordings_newest_first s ∅ [a; b] eq_refl eq_refl).
Defined.

(** The scenario of the store: empty, then A and then the newer B are put,
    then A is deleted. *)
Example getRecordings_scenario :
  let a := mkAudioRecording "r1" "A" (mkBlob [] "") 5 100 "" in
  let b := mkAudioRecording "r2" "B" (mkBlob [] "") 3 200 "" in
  let s0 := exec (init Success) (new None) in
  let s2 := put_all [a; b] s0 in
  let s3 := exec (deleteRecording "r1" Success) s2 in
  fst (getRecordings Success s0) = Normal [] /\
  fst (getRecordings Success s2) = Normal [b; a] /\
  fst (getRecordings Success s3) = Normal [b] /\
  fst (getRecording "r1" Success s3) = Normal None.
Proof. vm_compute. done. Qed.

(** C10.  As long as [init] has not succeeded, [this.db] is null, and
    [saveRecording], [getRecordings], [getRecording] and
    [deleteRecording] throw 'Database not initialized' and leave the
    storage as it was: the store is not written and no handle appears. *)
Theorem not_initialized_throws (s : AudioStorage.t) (recording : AudioRecording)
    (key : string) (request : Request) :
  db s = None ->
  saveRecording recording request s = (Thrown "Database not initialized", s) /\
  getRecordings request s = (Thrown "Database not initialized", s) /\
  getRecording key request s = (Thrown "Database not initialized", s) /\
  deleteRecording key request s = (Thrown "Database not initialized", s).
Proof.
  intros Hdb.
  unfold saveRecording, getRecordings, getRecording, deleteRecording, with_store.
  by rewrite Hdb.
Qed.

(** The handle is null in a new [AudioStorage] and after an [init] that
    failed. *)
Lemma db_new store : db (new store) = None.
Proof. done. Qed.

Lemma db_init_Failure s e : exec (init (Failure e)) s = s.
Proof. done. Qed.

Lemma not_initialized_throws_witness :
  let s := exec (init (Failure "UnknownError")) (new (Some ∅)) in
  let recording := mkAudioRecording "r1" "A" (mkBlob [] "") 5 100 "" in
  db s = None /\
  (saveRecording recording Success s = (Thrown "Database not initialized", s) /\
   getRecordings Success s = (Thrown "Database not initialized", s) /\
   getRecording "r1" Success s = (Thrown "Database not initialized", s) /\
   deleteRecording "r1" Success s = (Thrown "Database not initialized", s)).
Proof.
  intros s recording. split; [reflexivity|].
  apply (not_initialized_throws s recording "r1" Success). reflexivity.
Defined.

Lemma keyed_calls cs : forall s, keyed s -> keyed (calls cs s).
Proof.
  induction cs as [|c cs IH]; intros s Hs; [done|].
  apply IH. destruct c; simpl;
    auto using keyed_init, keyed_saveRecording, keyed_deleteRecording.
Qed.

Lemma keyed_NoDup s m : keyed s -> recordings s = Some m -> NoDup (id <$> records m).
Proof.
  intros Hs Hm. unfold records.
  assert (id <$> (map_to_list m).*2 = (map_to_list m).*1) as ->.
  { rewrite <- list_fmap_compose. apply list_fmap_ext.
    intros i [k r] Hkr. simpl. eapply Hs; [done|].
    apply elem_of_map_to_list. by eapply list_elem_of_lookup_2. }
  apply NoDup_fst_map_to_list.
Qed.
End StorageTheorems.

(** ** The media devices *)

Section DeviceFacts.
Import Js MediaDevices AudioDeviceManager.

Lemma lookup_new {A} (l : list A) (x : A) : (l ++ [x]) !! length l = Some x.
Proof. by apply list_lookup_middle. Qed.

Lemma alter_new {A} (f : A -> A) (l : list A) (x : A) :
  alter f (length l) (l ++ [x]) = l ++ [f x].
Proof.
  replace (length l) with (length l + 0)%nat at 1 by lia.
  by rewrite alter_app_r.
Qed.

Lemma stop_all_ended tracks :
  Forall (fun track => readyState track = ended) (map stop tracks).
Proof. induction tracks; simpl; by constructor. Qed.

Lemma released_new streams tracks :
  released (length streams) (streams ++ [map stop tracks]).
Proof.
  exists (map stop tracks). split; [apply lookup_new|apply stop_all_ended].
Qed.

(** Once a stream is released it stays so, whatever is opened or stopped
    afterwards. *)
Lemma released_app stream streams more :
  released stream streams -> released stream (streams ++ more).
Proof.
  intros (tracks & Hs & Hall). exists tracks. split; [|done].
  by apply lookup_app_l_Some.
Qed.

Lemma released_alter stream other streams :
  released stream streams -> released stream (alter (map stop) other streams).
Proof.
  intros (tracks & Hs & Hall).
  destruct (decide (other = stream)) as [->|Hne].
  - exists (map stop tracks). rewrite list_lookup_alter_eq, Hs.
    split; [done|apply stop_all_ended].
  - exists tracks. by rewrite list_lookup_alter_ne.
Qed.

Lemma alter_releases stream streams :
  is_Some (streams !! stream) -> released stream (alter (map stop) stream streams).
Proof.
  intros [tracks Hs]. exists (map stop tracks).
  rewrite list_lookup_alter_eq, Hs. split; [done|apply stop_all_ended].
Qed.

Lemma testDevice_Resolve deviceId tracks streams :
  testDevice deviceId (Resolve tracks) streams =
    (Normal ((0 <? Z.of_nat (length (getAudioTracks tracks))) &&
             match getAudioTracks tracks !! 0%nat with
             | Some track => is_live track
             | None => false
             end),
     streams ++ [map stop tracks]).
Proof.
  unfold testDevice, try_catch, bind, gets, getUserMedia, stopTracks, modify, ret.
  simpl. by rewrite lookup_new, alter_new.
Qed.

Lemma is_live_true track : is_live track = true <-> readyState track = live.
Proof. unfold is_live. by destruct (readyState track). Qed.

(** C9.  [testDevice] returns a boolean and does not throw.  For a stream
    with at most one audio track, which is what [getUserMedia] gives, the
    boolean is true exactly when the stream has a live audio track (the
    code looks at the first one); when [getUserMedia] rejects, the result
    is false and no stream was opened; and the tracks of the test stream
    are all stopped when the function returns. *)
Theorem testDevice_returns_liveness (deviceId : string) (outcome : UserMedia)
    (streams : MediaDevices.t) :
  one_audio_track outcome ->
  exists (isWorking : bool) (streams' : MediaDevices.t),
    testDevice deviceId outcome streams = (Normal isWorking, streams') /\
    (isWorking = true <->
       exists tracks, outcome = Resolve tracks /\ has_live_audio tracks) /\
    (forall e, outcome = Reject e -> isWorking = false /\ streams' = streams) /\
    (forall tracks, outcome = Resolve tracks ->
       streams' = streams ++ [map stop tracks] /\
       released (length streams) streams').
Proof.
  intros Hone. destruct outcome as [tracks|e].
  - eexists _, _. split; [apply testDevice_Resolve|].
    split; [|split; [done|]].
    + simpl in Hone. unfold has_live_audio.
      destruct (getAudioTracks tracks) as [|track [|track' rest]] eqn:Haudio;
        simpl in *; [| |lia].
      * split; [done|]. intros (tracks' & [= <-] & track & Hin & _).
        rewrite Haudio in Hin. by apply elem_of_nil in Hin.
      * rewrite is_live_true. split.
        -- intros Hlive. exists tracks. split; [done|]. exists track.
           rewrite Haudio. split; [by apply list_elem_of_singleton|done].
        -- intros (tracks' & [= <-] & track' & Hin & Hlive).
           rewrite Haudio in Hin. by apply list_elem_of_singleton in Hin as ->.
    + intros tracks' [= <-]. split; [done|apply released_new].
  - exists false, streams. split; [done|]. split; [|split; [done|done]].
    split; [done|]. by intros (tracks & [=] & _).
Qed.

Lemma testDevice_returns_liveness_witness :
  let outcome := Resolve [mkTrack audio live] in
  one_audio_track outcome /\
  exists (isWorking : bool) (streams' : MediaDevices.t),
    testDevice "default" outcome [] = (Normal isWorking, streams') /\
    (isWorking = true <->
       exists tracks, outcome = Resolve tracks /\ has_live_audio tracks) /\
    (forall e, outcome = Reject e -> isWorking = false /\ streams' = []) /\
    (forall tracks, outcome = Resolve tracks ->
       streams' = [] ++ [map stop tracks] /\ released (length ([] : MediaDevices.t)) streams').
Proof.
  intros outcome.
  assert (one_audio_track outcome) as Hone by (vm_compute; lia).
  split; [exact Hone|].
  exact (testDevice_returns_liveness "default" outcome [] Hone).
Defined.

Example testDevice_examples :
  fst (testDevice "mic" (Resolve [mkTrack audio live]) []) = Normal true /\
  fst (testDevice "mic" (Resolve [mkTrack audio ended]) []) = Normal false /\
  fst (testDevice "mic" (Resolve []) []) = Normal false /\
  fst (testDevice "mic" (Reject "NotFoundError") []) = Normal false.
Proof. by vm_compute. Qed.
End DeviceFacts.

(** ** The recorder component *)

Ltac js :=
  unfold AudioRecorder.step, Js.exec, AudioRecorder.handle, AudioRecorder.onClick,
    AudioRecorder.startRecording, AudioRecorder.stopRecording,
    AudioRecorder.pauseRecording, AudioRecorder.resumeRecording,
    AudioRecorder.requestMicrophonePermission,
    AudioRecorder.startRecording_resumed, AudioRecorder.onstop,
    AudioRecorder.ondataavailable, AudioRecorder.tick,
    AudioRecorder.clear_timerRef, AudioRecorder.clearInterval,
    AudioRecorder.setInterval, AudioRecorder.recorder_start,
    AudioRecorder.recorder_stop, AudioRecorder.recorder_pause,
    AudioRecorder.recorder_resume, AudioRecorder.recorder_state,
    AudioRecorder.new_MediaRecorder, AudioRecorder.setRecordingState,
    AudioRecorder.setError, AudioRecorder.setPermissionGranted,
    AudioRecorder.onRecordingComplete, AudioRecorder.media,
    AudioRecorder.storage, MediaDevices.getUserMedia, MediaDevices.stopTracks,
    Js.try_catch, Js.bind, Js.gets, Js.modify, Js.when, Js.ret, Js.throw in *.

(** Closes a conjunction of facts about a concrete run. *)
Ltac evaluate :=
  intros;
  repeat match goal with |- _ /\ _ => split end;
  first [ vm_compute; reflexivity
        | apply (bool_decide_unpack _); vm_compute; exact I ].

Section InvariantFacts.
Import Js AudioRecorder.

Lemma is_Some_lookup_alter {A} (f : A -> A) (i j : nat) (l : list A) :
  is_Some (alter f i l !! j) <-> is_Some (l !! j).
Proof. by rewrite !lookup_lt_is_Some, length_alter. Qed.

Lemma is_Some_lookup_app {A} (l more : list A) (j : nat) :
  is_Some (l !! j) -> is_Some ((l ++ more) !! j).
Proof. intros [x Hx]. exists x. by apply lookup_app_l_Some. Qed.

Lemma lookup_alter_set_state s pending (r r' : nat) (recs : list MediaRecorder) rec :
  alter (set_state s pending) r recs !! r' = Some rec ->
  exists rec0, recs !! r' = Some rec0 /\ onstop_stream rec = onstop_stream rec0 /\
    (rec = rec0 \/ (r = r' /\ state rec = s /\ stop_pending rec = pending)).
Proof.
  rewrite list_lookup_alter. destruct (decide (r = r')) as [->|Hne].
  - destruct (recs !! r') as [rec0|]; [|done]. intros [= <-].
    exists rec0. split; [done|]. split; [done|]. by right.
  - intros H. exists rec. by eauto.
Qed.

(** The events of the selector open a stream or do nothing. *)
Lemma step_DevicesLoaded w permission enumeration :
  step w (DevicesLoaded permission enumeration) =
    match permission with
    | Resolve tracks => set_streams (streams w ++ [tracks]) w
    | Reject _ => w
    end.
Proof.
  js. unfold AudioDeviceManager.getAudioInputDevices,
    AudioDeviceManager.enumerateDevices, try_catch, bind, ret,
    MediaDevices.getUserMedia.
  destruct permission, enumeration; simpl; by destruct w.
Qed.

Lemma step_DeviceSelected w deviceId outcome :
  step w (DeviceSelected deviceId outcome) =
    if disabled w then w
    else match outcome with
         | Resolve tracks =>
             set_streams (streams w ++ [map MediaDevices.stop tracks]) w
         | Reject _ => w
         end.
Proof.
  unfold step, exec, handle. destruct (disabled w); [done|].
  unfold media, bind, ret. destruct outcome as [tracks|e].
  - by rewrite testDevice_Resolve.
  - simpl. by destruct w.
Qed.

Lemma step_DevicesLoaded_cases w permission enumeration :
  step w (DevicesLoaded permission enumeration) = w \/
  exists tracks,
    step w (DevicesLoaded permission enumeration) =
      set_streams (streams w ++ [tracks]) w.
Proof.
  rewrite step_DevicesLoaded. destruct permission; [right; by eexists|by left].
Qed.

Lemma step_DeviceSelected_cases w deviceId outcome :
  step w (DeviceSelected deviceId outcome) = w \/
  exists tracks,
    step w (DeviceSelected deviceId outcome) =
      set_streams (streams w ++ [tracks]) w.
Proof.
  rewrite step_DeviceSelected. destruct (disabled w); [by left|].
  destruct outcome; [right; by eexists|by left].
Qed.

(** The invariant only reads the state cell, the recorders and the
    streams. *)
Lemma consistent_frame w w' :
  consistent w ->
  isRecording (recordingState w') = isRecording (recordingState w) ->
  isPaused (recordingState w') = isPaused (recordingState w) ->
  mediaRecorder (recordingState w') = mediaRecorder (recordingState w) ->
  audioStream (recordingState w') = audioStream (recordingState w) ->
  recorders w' = recorders w ->
  (forall s, is_Some (streams w !! s) -> is_Some (streams w' !! s)) ->
  consistent w'.
Proof.
  intros (Hrec & Hses & Hp) Hr Hpa Hm Ha Hrs Hst. unfold consistent, session_open.
  rewrite Hr, Hpa, Hm, Ha, Hrs. split; [|split; [exact Hses|exact Hp]].
  intros r rec Hl. apply Hst. by eapply Hrec.
Qed.

(** A recorder changes its state: the session stays open unless its own
    recorder is made inactive with no [stop] to come. *)
Lemma consistent_set_state w w' r s pending :
  consistent w ->
  recorders w' = alter (set_state s pending) r (recorders w) ->
  streams w' = streams w ->
  isRecording (recordingState w') = isRecording (recordingState w) ->
  mediaRecorder (recordingState w') = mediaRecorder (recordingState w) ->
  audioStream (recordingState w') = audioStream (recordingState w) ->
  (isPaused (recordingState w') = true -> isRecording (recordingState w') = true) ->
  (s <> inactive \/ pending = true) ->
  consistent w'.
Proof.
  intros (Hrec & Hses & Hp) Hrs Hst Hr Hm Ha Hp' Hs. unfold consistent, session_open.
  rewrite Hr, Hm, Ha, Hrs, Hst. split; [|split; [|by rewrite <- Hr]].
  - intros r' rec Hl. apply lookup_alter_set_state in Hl as (rec0 & Hl & -> & _).
    by eapply Hrec.
  - intros Hrec'.
    destruct (Hses Hrec') as (r0 & stream & Hm0 & Ha0 & rec & Hl & Hstream & Hact).
    exists r0, stream. split; [done|]. split; [done|].
    rewrite list_lookup_alter. destruct (decide (r = r0)) as [->|Hne].
    + rewrite Hl. simpl. eexists. split; [done|]. split; [done|]. simpl.
      destruct Hs as [?|?]; [by left|by right].
    + by exists rec.
Qed.

Lemma consistent_requestMicrophonePermission w permission :
  consistent w -> consistent (exec (requestMicrophonePermission permission) w).
Proof.
  intros Hw. js.
  destruct permission; simpl; (eapply consistent_frame; [exact Hw|done..|]); simpl.
  - intros s Hs. apply is_Some_lookup_alter. by apply is_Some_lookup_app.
  - done.
Qed.

Lemma consistent_onClick w b permission :
  consistent w -> consistent (exec (onClick b permission w) w).
Proof.
  intros Hw. destruct b; unfold onClick;
    try (by apply consistent_requestMicrophonePermission).
  - unfold startRecording, render; simpl. destruct (permissionGranted w); simpl.
    + js. by eapply consistent_frame.
    + by apply consistent_requestMicrophonePermission.
  - js. simpl.
    destruct (mediaRecorder (recordingState w)) as [r|] eqn:Hm; [|done].
    destruct (isRecording (recordingState w)) eqn:Hr; [|done].
    destruct (default inactive (state <$> recorders w !! r)); simpl; [done| |];
      destruct (timerRef w); simpl;
      (eapply consistent_set_state; [exact Hw|simpl; done..|by left]).
  - js. simpl.
    destruct (mediaRecorder (recordingState w)) as [r|] eqn:Hm; [|done].
    destruct (isRecording (recordingState w)) eqn:Hr; [|done].
    destruct (default inactive (state <$> recorders w !! r)); simpl; [done| |];
      (eapply consistent_set_state; [exact Hw|simpl; done..| |by right]);
      by destruct Hw as (_ & _ & Hp).
  - js. simpl.
    destruct (mediaRecorder (recordingState w)) as [r|] eqn:Hm; [|done].
    destruct (isPaused (recordingState w)) eqn:Hr; [|done].
    destruct (default inactive (state <$> recorders w !! r)); simpl; [done| |];
      (eapply consistent_set_state; [exact Hw|simpl; done..|by left]).
Qed.

Lemma consistent_initial store : consistent (initial store).
Proof.
  split; [|split; done]. intros r rec Hl. simpl in Hl. by rewrite lookup_nil in Hl.
Qed.

Lemma consistent_step w e : consistent w -> consistent (step w e).
Proof.
  intros Hw.
  destruct e as [perm|open|b perm|outcome mime|t|r data|r clock request|
                 perm enum|device outcome].
  - by apply consistent_requestMicrophonePermission.
  - js. destruct (AudioStorage.init open (audioStorage w)) as [[] s]; simpl;
      by eapply consistent_frame.
  - unfold step, exec, handle. destruct (offered b w); [|done].
    by apply consistent_onClick.
  - js. destruct (awaiting w) as [|closure rest]; [done|]. simpl.
    destruct outcome as [tracks|e]; simpl; [|by eapply consistent_frame].
    rewrite lookup_new. simpl.
    destruct Hw as (Hrec & Hses & Hp). unfold consistent, session_open. simpl.
    rewrite alter_new. split; [|split; [|done]].
    + intros r rec Hl. apply lookup_snoc_Some in Hl as [[_ Hl]|[_ <-]].
      * apply is_Some_lookup_app. by eapply Hrec.
      * simpl. rewrite lookup_new. by eexists.
    + intros _. exists (length (recorders w)), (length (streams w)).
      split; [done|]. split; [done|]. rewrite lookup_new. eexists.
      split; [done|]. split; [done|]. by left.
  - js. destruct (bool_decide (t ∈ intervals w)); simpl; by eapply consistent_frame.
  - js. destruct (recorders w !! r) as [rec|]; simpl; [|done].
    destruct (negb (bool_decide (state rec = inactive)) || stop_pending rec);
      simpl; [|done].
    destruct (0 <? blob_size data); simpl; [|done]. by eapply consistent_frame.
  - js. destruct (recorders w !! r) as [rec|] eqn:Hl; simpl; [|done].
    destruct (stop_pending rec); simpl; [|done].
    destruct Hw as (Hrec & Hses & Hp).
    destruct (AudioStorage.saveRecording _ request (audioStorage w)) as [[|e] st];
      simpl; destruct (timerRef w); simpl; unfold consistent, session_open; simpl;
      (split; [|split; done]);
      intros r' rec' Hl';
      apply lookup_alter_set_state in Hl' as (rec0 & Hl' & -> & _);
      apply is_Some_lookup_alter; by eapply Hrec.
  - destruct (step_DevicesLoaded_cases w perm enum) as [-> | [tracks ->]]; [done|].
    eapply consistent_frame; [exact Hw|done..|]. simpl.
    intros s Hs. by apply is_Some_lookup_app.
  - destruct (step_DeviceSelected_cases w device outcome) as [-> | [tracks ->]];
      [done|].
    eapply consistent_frame; [exact Hw|done..|]. simpl.
    intros s Hs. by apply is_Some_lookup_app.
Qed.

Lemma run_app es1 es2 w : run (es1 ++ es2) w = run es2 (run es1 w).
Proof. unfold run. apply fold_left_app. Qed.

Lemma consistent_run es : forall w, consistent w -> consistent (run es w).
Proof.
  induction es as [|e es IH]; intros w Hw; [done|].
  apply IH. by apply consistent_step.
Qed.

(** In a phase other than [Idle] the state names an open session. *)
Lemma phase_session_open w :
  consistent w -> phase (recordingState w) <> Idle ->
  isRecording (recordingState w) = true /\ exists r stream, session_open w r stream.
Proof.
  intros (_ & Hses & _) Hphase. unfold phase in Hphase.
  destruct (isRecording (recordingState w)); [|done]. by split; [|apply Hses].
Qed.
End InvariantFacts.

Section SessionTheorems.
Import Js AudioRecorder MediaDevices.

Lemma offered_StopButton w :
  isRecording (recordingState w) = true -> offered StopButton w = true.
Proof.
  intros Hr. unfold offered. rewrite Hr.
  by destruct (isPaused (recordingState w)).
Qed.

Lemma click_stop_stopping w r stream permission :
  consistent w -> session_open w r stream ->
  isRecording (recordingState w) = true ->
  stopping (step w (Click StopButton permission)) r stream.
Proof.
  intros (Hrec & _ & _) (Hm & Ha & rec & Hl & Hstream & Hact) Hr.
  assert (is_Some (streams w !! stream)) as Hs by (rewrite <- Hstream; eauto).
  unfold step, exec, handle. rewrite offered_StopButton by done.
  js. simpl. rewrite Hm, Hr, Hl. simpl.
  destruct (state rec) eqn:Hstate; unfold stopping; simpl.
  - split; [done|]. exists rec. split; [done|]. split; [done|]. split; [done|].
    by destruct Hact.
  - split; [done|]. rewrite list_lookup_alter_eq, Hl. by eexists.
  - split; [done|]. rewrite list_lookup_alter_eq, Hl. by eexists.
Qed.

Lemma step_DataAvailable w r data :
  step w (DataAvailable r data) = w \/
  step w (DataAvailable r data) = set_chunksRef (fun chunks => chunks ++ [data]) w.
Proof.
  js. destruct (recorders w !! r) as [rec|]; simpl; [|by left].
  destruct (negb (bool_decide (state rec = inactive)) || stop_pending rec);
    simpl; [|by left].
  destruct (0 <? blob_size data); simpl; [by right|by left].
Qed.

(** [stopping] only reads the streams and the recorder. *)
Lemma stopping_frame w w' r stream :
  stopping w r stream ->
  (forall s, is_Some (streams w !! s) -> is_Some (streams w' !! s)) ->
  recorders w' !! r = recorders w !! r ->
  stopping w' r stream.
Proof.
  intros (Hs & rec & Hl & Hrest) Hst Hr. split; [by apply Hst|].
  exists rec. by rewrite Hr.
Qed.

Lemma stopping_requestMicrophonePermission w r stream permission :
  stopping w r stream ->
  stopping (exec (requestMicrophonePermission permission) w) r stream.
Proof.
  intros Hw. js. destruct permission; simpl;
    (eapply stopping_frame; [exact Hw| |done]); simpl; [|done].
  intros s Hs. apply is_Some_lookup_alter. by apply is_Some_lookup_app.
Qed.

(** A method of the recorder of the state leaves a stopped recorder as it
    is: on this recorder itself [stop()] does nothing and [pause()] and
    [resume()] throw. *)
Lemma stopping_recorder_method w w' r stream r0 s pending :
  stopping w r stream ->
  streams w' = streams w ->
  recorders w' = alter (set_state s pending) r0 (recorders w) ->
  default inactive (state <$> recorders w !! r0) <> inactive ->
  stopping w' r stream.
Proof.
  intros Hw Hst Hrs Hact. eapply stopping_frame; [exact Hw|by rewrite Hst|].
  rewrite Hrs. apply list_lookup_alter_ne. intros ->.
  destruct Hw as (_ & rec & Hl & _ & Hstate & _).
  apply Hact. by rewrite Hl.
Qed.

Lemma stopping_step w e r stream :
  stopping w r stream -> before_stop_of r e -> stopping (step w e) r stream.
Proof.
  intros Hw He.
  destruct e as [perm|open|b perm|outcome mime|t|r0 data|r0 clock request|
                 perm enum|device outcome].
  - by apply stopping_requestMicrophonePermission.
  - js. destruct (AudioStorage.init open (audioStorage w)) as [[] s]; simpl;
      by eapply stopping_frame.
  - unfold step, exec, handle. destruct (offered b w); [|done].
    destruct b; unfold onClick;
      try (by apply stopping_requestMicrophonePermission).
    + unfold startRecording, render; simpl. destruct (permissionGranted w); simpl.
      * js. by eapply stopping_frame.
      * by apply stopping_requestMicrophonePermission.
    + js. simpl.
      destruct (mediaRecorder (recordingState w)) as [r0|]; [|done].
      destruct (isRecording (recordingState w)); [|done].
      destruct (default inactive (state <$> recorders w !! r0)) eqn:Hstate;
        simpl; [done| |]; destruct (timerRef w); simpl;
        (eapply stopping_recorder_method; [exact Hw|simpl; done..|by rewrite Hstate]).
    + js. simpl.
      destruct (mediaRecorder (recordingState w)) as [r0|]; [|done].
      destruct (isRecording (recordingState w)); [|done].
      destruct (default inactive (state <$> recorders w !! r0)) eqn:Hstate;
        simpl; [done| |];
        (eapply stopping_recorder_method; [exact Hw|simpl; done..|by rewrite Hstate]).
    + js. simpl.
      destruct (mediaRecorder (recordingState w)) as [r0|]; [|done].
      destruct (isPaused (recordingState w)); [|done].
      destruct (default inactive (state <$> recorders w !! r0)) eqn:Hstate;
        simpl; [done| |];
        (eapply stopping_recorder_method; [exact Hw|simpl; done..|by rewrite Hstate]).
  - js. destruct (awaiting w) as [|closure rest]; [done|]. simpl.
    destruct outcome as [tracks|e]; simpl; [|by eapply stopping_frame].
    rewrite lookup_new. simpl.
    destruct Hw as (Hs & rec & Hl & Hrest). split; simpl.
    + by apply is_Some_lookup_app.
    + rewrite alter_new. exists rec. split; [|done]. by apply lookup_app_l_Some.
  - js. destruct (bool_decide (t ∈ intervals w)); simpl; by eapply stopping_frame.
  - by destruct (step_DataAvailable w r0 data) as [-> | ->].
  - simpl in He. js. destruct (recorders w !! r0) as [rec0|] eqn:Hl0; simpl; [|done].
    destruct (stop_pending rec0); simpl; [|done].
    destruct (AudioStorage.saveRecording _ request (audioStorage w)) as [[|e] st];
      simpl; destruct (timerRef w); simpl;
      (eapply stopping_frame; [exact Hw|simpl|simpl; by rewrite list_lookup_alter_ne]);
      intros s Hs; by apply is_Some_lookup_alter.
  - destruct (step_DevicesLoaded_cases w perm enum) as [-> | [tracks ->]]; [done|].
    eapply stopping_frame; [exact Hw| |done]. simpl.
    intros s Hs. by apply is_Some_lookup_app.
  - destruct (step_DeviceSelected_cases w device outcome) as [-> | [tracks ->]];
      [done|].
    eapply stopping_frame; [exact Hw| |done]. simpl.
    intros s Hs. by apply is_Some_lookup_app.
Qed.

Lemma stopping_run es r stream : forall w,
  stopping w r stream -> Forall (before_stop_of r) es ->
  stopping (run es w) r stream.
Proof.
  induction es as [|e es IH]; intros w Hw Hes; [done|].
  apply Forall_cons in Hes as [He Hes].
  apply IH; [|done]. by apply stopping_step.
Qed.

Lemma stopped_released w r stream clock request :
  stopping w r stream ->
  released stream (streams (step w (Stopped r clock request))).
Proof.
  intros (Hs & rec & Hl & <- & _ & Hpending).
  js. rewrite Hl. simpl. rewrite Hpending. simpl.
  destruct (AudioStorage.saveRecording _ request (audioStorage w)) as [[|e] st];
    simpl; destruct (timerRef w); simpl; by apply alter_releases.
Qed.

(** C2.  In every state that the events lead to, if the phase is
    [Recording] or [Paused], the state names the recorder and the input
    stream of the session; and after a click on Stop, whatever happens
    before the recorder fires [stop], once it has fired every track of that
    stream is stopped, whether the write to the storage succeeds or fails. *)
Theorem stop_releases_stream (store : option (gmap string AudioRecording))
    (es : list Event) :
  let w := run es (initial store) in
  phase (recordingState w) <> Idle ->
  exists r stream,
    mediaRecorder (recordingState w) = Some r /\
    audioStream (recordingState w) = Some stream /\
    forall permission between clock request,
      Forall (before_stop_of r) between ->
      released stream
        (streams (run (Click StopButton permission :: between
                         ++ [Stopped r clock request]) w)).
Proof.
  intros w Hphase.
  assert (consistent w) as Hw by apply consistent_run, consistent_initial.
  destruct (phase_session_open w Hw Hphase) as (Hr & r & stream & Hopen).
  exists r, stream. split; [apply Hopen|]. split; [apply Hopen|].
  intros permission between clock request Hbetween.
  change (run (?e :: ?es) w) with (run es (step w e)).
  rewrite run_app. simpl.
  apply stopped_released, stopping_run; [|done].
  by apply click_stop_stopping.
Qed.











(** The same run with chunks of 10, 20 and 30 bytes: 60 bytes are
    delivered in phase [Recording] and 50 are stored. *)
Example chunk_lost_scenario :
  let w := run (Scenario.loaded
                ++ [Click StartButton Scenario.microphone;
                    Click StartButton Scenario.microphone;
                    UserMediaSettled Scenario.microphone Scenario.webm]
                ++ deliver 0 [Scenario.chunk 10]
                ++ [UserMediaSettled Scenario.microphone Scenario.webm]
                ++ deliver 1 [Scenario.chunk 20; Scenario.chunk 30]
                ++ Scenario.stop 1 Scenario.clock) (initial None) in
  (blob_size ∘ blob) <$> recordings w = [50].
Proof. by vm_compute. Qed.

Lemma stop_releases_stream_witness :
  let w := run (Scenario.seconds 2) (initial None) in
  phase (recordingState w) <> Idle /\
  exists r stream,
    mediaRecorder (recordingState w) = Some r /\
    audioStream (recordingState w) = Some stream /\
    forall permission between clock request,
      Forall (before_stop_of r) between ->
      released stream
        (streams (run (Click StopButton permission :: between
                         ++ [Stopped r clock request]) w)).
Proof.
  assert (phase (recordingState (run (Scenario.seconds 2) (initial None))) <> Idle)
    as Hphase by (vm_compute; discriminate).
  split; [exact Hphase|].
  exact (stop_releases_stream None (Scenario.seconds 2) Hphase).
Defined.

(** The scenario of the session: a start, chunks of 10, 20 and 30 bytes
    and an empty one, a stop whose write succeeds.  The stored payload has
    60 bytes and the phase is [Idle] again. *)
Example three_chunks_scenario :
  let w := run (Scenario.loaded ++ Scenario.start
                ++ deliver 0 [Scenario.chunk 10; Scenario.chunk 0; Scenario.chunk 20]
                ++ [Click StopButton Scenario.microphone]
                ++ deliver 0 [Scenario.chunk 30]
                ++ [Stopped 0 Scenario.clock AudioStorage.Success])
             (initial None) in
  ((blob_size ∘ blob) <$> recordings w) = [60] /\
  fst (AudioStorage.getRecordings AudioStorage.Success (audioStorage w))
    = Normal (recordings w) /\
  phase (recordingState w) = Idle.
Proof. by vm_compute. Qed.

(** *** Start *)

(** C1, as the code has it.  In the phases [Recording] and [Paused] the
    Start button is not in the page, and a click on it changes nothing:
    the buffer, the timer, the count of seconds and the phase stay as they
    are, and no error is reported. *)
Theorem start_not_offered_while_active (w : World) (permission : UserMedia) :
  phase (recordingState w) <> Idle ->
  offered StartButton w = false /\
  step w (Click StartButton permission) = w.
Proof.
  intros Hphase. unfold phase in Hphase.
  destruct (isRecording (recordingState w)) eqn:Hr; [|done].
  assert (offered StartButton w = false) as Hoff.
  { unfold offered. by rewrite Hr. }
  split; [done|]. unfold step, exec, handle. by rewrite Hoff.
Qed.

Lemma start_not_offered_while_active_witness :
  let w := run (Scenario.seconds 2) (initial None) in
  phase (recordingState w) <> Idle /\
  (offered StartButton w = false /\
   step w (Click StartButton Scenario.microphone) = w).
Proof.
  assert (phase (recordingState (run (Scenario.seconds 2) (initial None))) <> Idle)
    as Hphase by (vm_compute; discriminate).
  split; [exact Hphase|].
  exact (start_not_offered_while_active _ Scenario.microphone Hphase).
Defined.

(** C1 fails for [startRecording] itself.  While a recording of two
    seconds with one chunk in the buffer goes on, a call of
    [startRecording] is not rejected: when its stream arrives the buffer is
    emptied, a second recorder and a second timer are started, and no error
    is reported. *)
Lemma startRecording_while_recording_not_rejected :
  let w := run (Scenario.seconds 2 ++ deliver 0 [Scenario.chunk 10]) (initial None) in
  let w' := exec (startRecording_resumed (recordingState w)
                    Scenario.microphone Scenario.webm)
              (exec (startRecording (render w) Scenario.microphone) w) in
  phase (recordingState w) = Recording /\
  chunksRef w = [Scenario.chunk 10] /\ chunksRef w' = [] /\
  timerRef w = Some 1%positive /\ timerRef w' = Some 2%positive /\
  1%positive ∈ intervals w' /\ 2%positive ∈ intervals w' /\
  mediaRecorder (recordingState w) = Some 0%nat /\
  mediaRecorder (recordingState w') = Some 1%nat /\
  error w' = "".
Proof. evaluate. Qed.
Lemma step_UserMediaSettled_Resolve w closure rest tracks mime :
  awaiting w = closure :: rest ->
  step w (UserMediaSettled (Resolve tracks) mime) =
    set_error ""
      (set_recordingState (started_update (length (recorders w)) (length (streams w)))
        (set_timerRef (Some (next_interval w))
          (set_next_interval (Pos.succ (next_interval w))
            (set_intervals (fun s => {[next_interval w]} ∪ s)
              (set_recorders
                (fun rs => rs ++ [mkMediaRecorder recording false mime
                                    (length (streams w)) closure])
                (set_chunksRef (fun _ => [])
                  (set_streams (streams w ++ [tracks])
                    (set_awaiting (fun _ => rest) w)))))))).
Proof.
  intros Ha. js. rewrite Ha. simpl. rewrite lookup_new. simpl.
  unfold set_recorders at 1 2. simpl. by rewrite alter_new.
Qed.

Lemma stopped_resets_state w r rec clock request :
  recorders w !! r = Some rec -> stop_pending rec = true ->
  recordingState (step w (Stopped r clock request)) = recordingState (initial None).
Proof.
  intros Hl Hpending. js. rewrite Hl. simpl. rewrite Hpending. simpl.
  destruct (AudioStorage.saveRecording _ request (audioStorage w)) as [[|e] st];
    simpl; by destruct (timerRef w).
Qed.

(** What [startRecording] does when its stream arrives: the phase becomes
    [Recording], the buffer is emptied, and a new interval is set and kept
    in [timerRef]; when it fires the count of seconds grows by one, and a
    click on Pause in this state clears it.  The count itself is not
    written: it is 0 in the first state, and it is the [stop] event of a
    recorder that sets it back to 0. *)
Lemma start_empties_buffer_and_sets_timer (w : World)
    (closure : RecordingState) (rest : list RecordingState)
    (tracks : MediaStream) (mime : string) :
  awaiting w = closure :: rest ->
  let timer := next_interval w in
  let w' := step w (UserMediaSettled (Resolve tracks) mime) in
  phase (recordingState w') = Recording /\
  chunksRef w' = [] /\
  timerRef w' = Some timer /\
  timer ∈ intervals w' /\
  recordingTime (recordingState (step w' (Tick timer))) =
    recordingTime (recordingState w') + 1 /\
  (forall permission,
     timer ∉ intervals (step w' (Click PauseButton permission))) /\
  recordingTime (recordingState w') = recordingTime (recordingState w) /\
  (forall store, recordingTime (recordingState (initial store)) = 0) /\
  (forall w0 r rec clock request,
     recorders w0 !! r = Some rec -> stop_pending rec = true ->
     recordingTime (recordingState (step w0 (Stopped r clock request))) = 0).
Proof.
  intros Ha timer w'. unfold w'.
  rewrite (step_UserMediaSettled_Resolve w closure rest) by done.
  split; [done|]. split; [done|]. split; [done|].
  assert (forall s : gset positive, timer ∈ {[timer]} ∪ s) as Hin.
  { intros s. apply elem_of_union_l. by apply elem_of_singleton. }
  split; [apply Hin|].
  split.
  { js. simpl. by rewrite bool_decide_eq_true_2. }
  split.
  { intros permission. js. simpl. rewrite lookup_new. simpl.
    intros [_ Hnot]%elem_of_difference. apply Hnot. by apply elem_of_singleton. }
  split; [done|]. split; [done|].
  intros w0 r rec clock request Hl Hpending.
  by rewrite (stopped_resets_state w0 r rec).
Qed.

(** *** The count of seconds *)

Lemma tick_live w t :
  t ∈ intervals w -> step w (Tick t) = set_recordingState tick_update w.
Proof. intros Hin. js. by rewrite bool_decide_eq_true_2. Qed.

Lemma tick_cleared w t : t ∉ intervals w -> step w (Tick t) = w.
Proof. intros Hin. js. by rewrite bool_decide_eq_false_2. Qed.

(** [n] ticks of a live timer add [n] to the count and change nothing else. *)
Lemma run_ticks n t : forall w,
  t ∈ intervals w ->
  run (repeat (Tick t) n) w = set_recordingState (elapse (Z.of_nat n)) w.
Proof.
  induction n as [|n IH]; intros w Hin.
  - destruct w as [[] ? ? ? ? ? ? ? ? ? ? ?]. unfold set_recordingState, elapse. simpl.
    by rewrite Z.add_0_r.
  - cbn [repeat run fold_left]. rewrite tick_live by done.
    fold (run (repeat (Tick t) n) (set_recordingState tick_update w)).
    rewrite IH by done.
    destruct w as [[] ? ? ? ? ? ? ? ? ? ? ?].
    unfold set_recordingState, elapse, tick_update. simpl. do 2 f_equal. lia.
Qed.

(** The closure of [onstop] is the state of the render whose Start button
    was clicked. *)
Lemma started_closure w permission tracks mime :
  offered StartButton w = true -> awaiting w = [] ->
  let w' := run [Click StartButton permission;
                 UserMediaSettled (Resolve tracks) mime] w in
  exists r rec,
    mediaRecorder (recordingState w') = Some r /\
    recorders w' !! r = Some rec /\
    onstop_recordingState rec = recordingState w.
Proof.
  intros Hoff Ha. cbn [run fold_left].
  assert (step w (Click StartButton permission) =
          set_awaiting (fun calls => calls ++ [recordingState w]) w) as ->.
  { unfold step, exec, handle. rewrite Hoff. unfold onClick, startRecording, render.
    simpl. unfold offered in Hoff.
    destruct (permissionGranted w); [done|]. by rewrite andb_false_r in Hoff. }
  rewrite (step_UserMediaSettled_Resolve _ (recordingState w) [])
    by (simpl; by rewrite Ha).
  simpl. exists (length (recorders w)). rewrite lookup_new. by eexists.
Qed.

(** C8 fails for the count of seconds.  [startRecording] does not write
    the count: it counts on the [stop] event to have set it to 0.  After
    two clicks on Start before the first stream arrived, the interval of
    the first start is never cleared.  The second recorder is stopped and
    its recording saved: the phase is [Idle] and the count 0.  The interval
    that was left fires [n] times, and the start that follows begins to
    record with the buffer empty and the count at [n]. *)
Theorem recording_begins_with_leaked_count (n : nat) :
  let idle := run (Scenario.loaded ++ Scenario.double_start
                   ++ Scenario.stop 1 Scenario.clock) (initial None) in
  let w := run (repeat (Tick 1) n ++ [Click StartButton Scenario.microphone]) idle in
  let w' := step w (UserMediaSettled Scenario.microphone Scenario.webm) in
  (phase (recordingState idle) = Idle /\
   recordingTime (recordingState idle) = 0 /\
   timerRef idle = Some 2%positive /\
   intervals idle = {[1%positive]}) /\
  (phase (recordingState w) = Idle /\
   awaiting w = [recordingState w] /\
   recordingTime (recordingState w) = Z.of_nat n) /\
  (phase (recordingState w') = Recording /\
   chunksRef w' = [] /\
   timerRef w' = Some 3%positive /\
   recordingTime (recordingState w') = Z.of_nat n).
Proof.
  intros idle w w'.
  assert (w = step (set_recordingState (elapse (Z.of_nat n)) idle)
                (Click StartButton Scenario.microphone)) as Hw.
  { unfold w. rewrite run_app. rewrite run_ticks; [done|].
    apply (bool_decide_unpack _). vm_compute. exact I. }
  unfold w'. rewrite Hw. clear.
  split; [|split].
  - split; [vm_compute; reflexivity|]. split; [vm_compute; reflexivity|].
    split; vm_compute; reflexivity.
  - split; [vm_compute; reflexivity|]. split; vm_compute; reflexivity.
  - split; [vm_compute; reflexivity|]. split; [vm_compute; reflexivity|].
    split; vm_compute; reflexivity.
Qed.

(** One second is enough: the recording begins at 00:01. *)
Example leaked_count_scenario :
  let w := run (Scenario.loaded ++ Scenario.double_start
                ++ Scenario.stop 1 Scenario.clock
                ++ [Tick 1; Click StartButton Scenario.microphone;
                    UserMediaSettled Scenario.microphone Scenario.webm])
             (initial None) in
  phase (recordingState w) = Recording /\
  recordingTime (recordingState w) = 1.
Proof. by vm_compute. Qed.

(** C4 fails.  A recording that lasts [n] seconds: at the click on Stop the
    count of seconds is [n], and the recording that is saved, which the
    storage then returns, has the duration 0: [onstop] reads the count in
    the state of the render whose Start button was clicked. *)
Theorem stored_duration_is_of_start_render (n : nat) :
  let w := run (Scenario.seconds n) (initial None) in
  let w' := run (Scenario.stop 0 Scenario.clock) w in
  recordingTime (recordingState w) = Z.of_nat n /\
  duration <$> recordings w' = [0] /\
  fst (AudioStorage.getRecordings AudioStorage.Success (audioStorage w'))
    = Normal (recordings w').
Proof.
  intros w w'.
  assert (w = set_recordingState (elapse (Z.of_nat n))
                (run (Scenario.loaded ++ Scenario.start) (initial None))) as Hw.
  { unfold w, Scenario.seconds. rewrite app_assoc, run_app.
    apply run_ticks. apply (bool_decide_unpack _). vm_compute. exact I. }
  unfold w'. rewrite Hw. clear.
  split; [vm_compute; reflexivity|]. split; vm_compute; reflexivity.
Qed.

(** Neither [pauseRecording] nor [resumeRecording] writes the count of
    seconds: a click on Pause followed by a click on Resume leaves it as it
    was. *)
Lemma click_keeps_time w b permission :
  b = PauseButton \/ b = ResumeButton ->
  recordingTime (recordingState (step w (Click b permission))) =
  recordingTime (recordingState w).
Proof.
  intros Hb. unfold step, exec, handle. destruct (offered b w); [|done].
  destruct Hb as [-> | ->]; js; simpl;
    destruct (mediaRecorder (recordingState w)) as [r|]; try done.
  - destruct (isRecording (recordingState w)); [|done].
    destruct (default inactive (state <$> recorders w !! r)); simpl; [done| |];
      by destruct (timerRef w).
  - destruct (isPaused (recordingState w)); [|done].
    by destruct (default inactive (state <$> recorders w !! r)).
Qed.

Lemma pause_resume_keeps_time w permission permission' :
  recordingTime
    (recordingState (run [Click PauseButton permission;
                          Click ResumeButton permission'] w)) =
  recordingTime (recordingState w).
Proof.
  cbn [run fold_left]. rewrite !click_keeps_time; auto.
Qed.

(** No event but the tick of a live interval and the [stop] event of a
    recorder, which ends the session, changes the count. *)
Lemma time_changes_by_tick w e :
  recordingTime (recordingState (step w e)) <> recordingTime (recordingState w) ->
  (exists t, e = Tick t /\ t ∈ intervals w) \/
  (exists r clock request, e = Stopped r clock request).
Proof.
  intros Hne. destruct e as [perm|open|b perm|outcome mime|t|r data|r clock request|
                 perm enum|device outcome].
  - exfalso. apply Hne. js. by destruct perm.
  - exfalso. apply Hne. js.
    by destruct (AudioStorage.init open (audioStorage w)) as [[] s].
  - exfalso. apply Hne. unfold step, exec, handle.
    destruct (offered b w); [|done]. destruct b; js; simpl.
    + destruct (permissionGranted w); simpl; [done|]. by destruct perm.
    + destruct (mediaRecorder (recordingState w)) as [r|]; [|done].
      destruct (isRecording (recordingState w)); [|done].
      destruct (default inactive (state <$> recorders w !! r)); simpl; [done| |];
        by destruct (timerRef w).
    + destruct (mediaRecorder (recordingState w)) as [r|]; [|done].
      destruct (isRecording (recordingState w)); [|done].
      by destruct (default inactive (state <$> recorders w !! r)).
    + destruct (mediaRecorder (recordingState w)) as [r|]; [|done].
      destruct (isPaused (recordingState w)); [|done].
      by destruct (default inactive (state <$> recorders w !! r)).
    + by destruct perm.
  - exfalso. apply Hne. js. destruct (awaiting w) as [|closure rest]; [done|]. simpl.
    destruct outcome as [tracks|e]; simpl; [|done]. by rewrite lookup_new.
  - left. exists t. split; [done|].
    destruct (decide (t ∈ intervals w)) as [Hin|Hnotin]; [done|].
    by rewrite tick_cleared in Hne.
  - exfalso. apply Hne.
    by destruct (step_DataAvailable w r data) as [-> | ->].
  - right. by eauto.
  - exfalso. apply Hne.
    by destruct (step_DevicesLoaded_cases w perm enum) as [-> | [tracks ->]].
  - exfalso. apply Hne.
    by destruct (step_DeviceSelected_cases w device outcome) as [-> | [tracks ->]].
Qed.

(** C7 fails.  After two clicks on Start before the first stream arrived,
    the interval of the first start is live and [timerRef] holds that of the
    second.  A click on Pause clears the second one only: the phase is
    [Paused], the first interval fires, the phase is still [Paused] and the
    count of seconds has grown. *)
Theorem leaked_interval_counts_while_paused :
  let w := run (Scenario.loaded ++ Scenario.double_start
                ++ [Click PauseButton Scenario.microphone]) (initial None) in
  let w' := step w (Tick 1) in
  phase (recordingState w) = Paused /\
  timerRef w = Some 2%positive /\
  (2%positive ∉ intervals w) /\
  (1%positive ∈ intervals w) /\
  recordingTime (recordingState w) = 0 /\
  phase (recordingState w') = Paused /\
  recordingTime (recordingState w') = 1.
Proof. evaluate. Qed.

(** *** Identifiers *)

Lemma id_assemble chunks duration mime clock :
  id (assemble chunks duration mime clock) = "recording_" +:+ pretty (Date_now clock).
Proof. done. Qed.

(** C6, as the code has it.  Two recordings that [onstop] builds at
    different readings of [Date.now()] have different identifiers; and in
    the store that any calls of [init], [saveRecording] and
    [deleteRecording] leave, no two records have the same identifier. *)
Theorem identifiers_distinct_by_clock
    (chunks1 chunks2 : list Blob) (duration1 duration2 : Z)
    (mime1 mime2 : string) (clock1 clock2 : Clock)
    (cs : list AudioStorage.Call) (m : gmap string AudioRecording) :
  Date_now clock1 <> Date_now clock2 ->
  AudioStorage.recordings (AudioStorage.calls cs (AudioStorage.new None)) = Some m ->
  id (assemble chunks1 duration1 mime1 clock1) <>
    id (assemble chunks2 duration2 mime2 clock2) /\
  NoDup (id <$> AudioStorage.records m).
Proof.
  intros Hclock Hm. split.
  - rewrite !id_assemble. intros Heq. apply Hclock.
    apply (inj pretty). by apply (inj (String.append "recording_")).
  - eapply keyed_NoDup; [|exact Hm]. apply keyed_calls, keyed_new.
Qed.

Lemma identifiers_distinct_by_clock_witness :
  let later := mkClock (Date_now Scenario.clock + 1) "" (new_Date Scenario.clock + 1) in
  let r1 := assemble [Scenario.chunk 10] 0 Scenario.webm Scenario.clock in
  let r2 := assemble [Scenario.chunk 20] 0 Scenario.webm later in
  let cs := [AudioStorage.Init AudioStorage.Success;
             AudioStorage.Save r1 AudioStorage.Success;
             AudioStorage.Save r2 AudioStorage.Success] in
  Date_now Scenario.clock <> Date_now later /\
  AudioStorage.recordings (AudioStorage.calls cs (AudioStorage.new None))
    = Some (<[id r2 := r2]> (<[id r1 := r1]> ∅)) /\
  (id r1 <> id r2 /\
   NoDup (id <$> AudioStorage.records (<[id r2 := r2]> (<[id r1 := r1]> ∅)))).
Proof.
  intros later r1 r2 cs.
  assert (Date_now Scenario.clock <> Date_now later) as Hclock by (vm_compute; discriminate).
  assert (AudioStorage.recordings (AudioStorage.calls cs (AudioStorage.new None))
          = Some (<[id r2 := r2]> (<[id r1 := r1]> ∅))) as Hm by reflexivity.
  split; [exact Hclock|]. split; [exact Hm|].
  exact (identifiers_distinct_by_clock [Scenario.chunk 10] [Scenario.chunk 20] 0 0
           Scenario.webm Scenario.webm Scenario.clock later cs _ Hclock Hm).
Defined.

(** C6 fails for the identifiers.  Two recordings, of 10 and of 20 bytes,
    are made one after the other and their [stop] events read the same
    [Date.now()]: both have the same identifier, and the store keeps the
    second in the place of the first. *)
Lemma same_clock_same_identifier :
  let w := run (Scenario.loaded
                ++ Scenario.start ++ deliver 0 [Scenario.chunk 10]
                ++ Scenario.stop 0 Scenario.clock
                ++ Scenario.start ++ deliver 1 [Scenario.chunk 20]
                ++ Scenario.stop 1 Scenario.clock) (initial None) in
  ((blob_size ∘ blob) <$> recordings w) = [20; 10] /\
  (id <$> recordings w) = ["recording_1700000000000"; "recording_1700000000000"] /\
  fst (AudioStorage.getRecordings AudioStorage.Success (audioStorage w))
    = Normal (take 1 (recordings w)).
Proof. evaluate. Qed.
End SessionTheorems.

(** * Further properties *)

(** ** The storage: reads after writes *)

Section StorageExtras.
Import Js AudioStorage.

Lemma ready_eta s m :
  ready s m ->
  s = {| db := Some Connection; recordings := Some m; version := version s |}.
Proof. intros [Hdb Hm]. destruct s. simpl in *. by subst. Qed.

Lemma saveRecording_ready s m recording :
  ready s m ->
  saveRecording recording Success s =
    (Normal tt,
     {| db := Some Connection; recordings := Some (<[id recording := recording]> m);
        version := version s |}).
Proof.
  intros [Hdb Hm]. unfold saveRecording, with_store. by rewrite Hdb, Hm.
Qed.

Lemma deleteRecording_ready s m key :
  ready s m ->
  deleteRecording key Success s =
    (Normal tt, {| db := Some Connection; recordings := Some (delete key m);
                   version := version s |}).
Proof.
  intros [Hdb Hm]. unfold deleteRecording, with_store. by rewrite Hdb, Hm.
Qed.

Lemma getRecording_ready s m key :
  ready s m -> getRecording key Success s = (Normal (m !! key), s).
Proof.
  intros [Hdb Hm]. unfold getRecording, with_store. by rewrite Hdb, Hm.
Qed.

(** A recording that was saved is what [getRecording] returns for its
    identifier, and the answers for all other identifiers are as before. *)
Theorem getRecording_after_saveRecording (s : AudioStorage.t)
    (m : gmap string AudioRecording) (recording : AudioRecording) (key : string) :
  ready s m ->
  let s' := exec (saveRecording recording Success) s in
  getRecording (id recording) Success s' = (Normal (Some recording), s') /\
  (key <> id recording ->
   fst (getRecording key Success s') = fst (getRecording key Success s)).
Proof.
  intros Hs s'. unfold s', exec. rewrite (saveRecording_ready s m) by done. simpl.
  rewrite (getRecording_ready s m) by done.
  rewrite !(getRecording_ready _ (<[id recording := recording]> m)) by done.
  split.
  - by rewrite lookup_insert_eq.
  - intros Hne. simpl. by rewrite lookup_insert_ne.
Qed.

Lemma getRecording_after_saveRecording_witness :
  let s := exec (init Success) (new None) in
  let a := mkAudioRecording "r1" "A" (mkBlob [] "") 5 100 "" in
  ready s ∅ /\
  let s' := exec (saveRecording a Success) s in
  getRecording (id a) Success s' = (Normal (Some a), s') /\
  ("r2" <> id a ->
   fst (getRecording "r2" Success s') = fst (getRecording "r2" Success s)).
Proof.
  intros s a.
  assert (ready s ∅) as Hs by (split; reflexivity).
  split; [exact Hs|].
  exact (getRecording_after_saveRecording s ∅ a "r2" Hs).
Defined.

(** [deleteRecording] succeeds whether or not the identifier is stored.
    Afterwards [getRecording] returns null for it and the other records are
    as before; when the identifier was not stored, nothing has changed. *)
Theorem deleteRecording_removes (s : AudioStorage.t)
    (m : gmap string AudioRecording) (key other : string) :
  ready s m ->
  let s' := exec (deleteRecording key Success) s in
  fst (deleteRecording key Success s) = Normal tt /\
  getRecording key Success s' = (Normal None, s') /\
  (other <> key ->
   fst (getRecording other Success s') = fst (getRecording other Success s)) /\
  (m !! key = None -> s' = s).
Proof.
  intros Hs s'. unfold s', exec. rewrite (deleteRecording_ready s m) by done. simpl.
  rewrite (getRecording_ready s m) by done.
  rewrite !(getRecording_ready _ (delete key m)) by done.
  split; [done|]. split; [by rewrite lookup_delete_eq|].
  split.
  - intros Hne. simpl. by rewrite lookup_delete_ne.
  - intros Hnone. rewrite delete_id by done. symmetry. by apply ready_eta.
Qed.

Lemma deleteRecording_removes_witness :
  let a := mkAudioRecording "r1" "A" (mkBlob [] "") 5 100 "" in
  let s := exec (saveRecording a Success) (exec (init Success) (new None)) in
  ready s (<[id a := a]> ∅) /\
  let s' := exec (deleteRecording "r1" Success) s in
  fst (deleteRecording "r1" Success s) = Normal tt /\
  getRecording "r1" Success s' = (Normal None, s') /\
  ("r2" <> "r1" ->
   fst (getRecording "r2" Success s') = fst (getRecording "r2" Success s)) /\
  ((<[id a := a]> ∅ : gmap string AudioRecording) !! "r1" = None -> s' = s).
Proof.
  intros a s.
  assert (ready s (<[id a := a]> ∅)) as Hs by (split; reflexivity).
  split; [exact Hs|].
  exact (deleteRecording_removes s (<[id a := a]> ∅) "r1" "r2" Hs).
Defined.

(** [saveRecording] is an upsert: under an identifier that is stored the
    number of records stays the same, under a new one it grows by one; and
    [getRecordings] returns as many recordings as the store holds
    identifiers. *)
Theorem saveRecording_upsert (s : AudioStorage.t)
    (m : gmap string AudioRecording) (recording : AudioRecording) :
  ready s m ->
  let s' := exec (saveRecording recording Success) s in
  exists m' l,
    ready s' m' /\
    (is_Some (m !! id recording) -> size m' = size m) /\
    (m !! id recording = None -> size m' = S (size m)) /\
    getRecordings Success s' = (Normal l, s') /\
    length l = size m'.
Proof.
  intros Hs s'. unfold s', exec. rewrite (saveRecording_ready s m) by done. simpl.
  exists (<[id recording := recording]> m),
         (sort newest_first (index_getAll (<[id recording := recording]> m))).
  split; [done|].
  split; [by apply map_size_insert_Some|].
  split; [by apply map_size_insert_None|].
  split; [by rewrite (getRecordings_ready _ (<[id recording := recording]> m))|].
  rewrite sort_Permutation, index_getAll_Permutation. unfold records.
  by rewrite length_fmap, length_map_to_list.
Qed.

Lemma saveRecording_upsert_witness :
  let a := mkAudioRecording "r1" "A" (mkBlob [] "") 5 100 "" in
  let a' := mkAudioRecording "r1" "A again" (mkBlob [] "") 7 300 "" in
  let s := exec (saveRecording a Success) (exec (init Success) (new None)) in
  ready s (<[id a := a]> ∅) /\
  let s' := exec (saveRecording a' Success) s in
  exists m' l,
    ready s' m' /\
    (is_Some ((<[id a := a]> ∅ : gmap string AudioRecording) !! id a') ->
     size m' = size (<[id a := a]> ∅ : gmap string AudioRecording)) /\
    ((<[id a := a]> ∅ : gmap string AudioRecording) !! id a' = None ->
     size m' = S (size (<[id a := a]> ∅ : gmap string AudioRecording))) /\
    getRecordings Success s' = (Normal l, s') /\
    length l = size m'.
Proof.
  intros a a' s.
  assert (ready s (<[id a := a]> ∅)) as Hs by (split; reflexivity).
  split; [exact Hs|].
  exact (saveRecording_upsert s (<[id a := a]> ∅) a' Hs).
Defined.

(** [init] creates the object store only together with the database.  In
    a browser that has no database a successful [init] leaves the storage
    open with an empty store.  On a database that has the current version
    already it keeps what is there: a store with its records, and the lack
    of a store as well.  In that last case [init] resolves all the same,
    and afterwards every operation rejects with NotFoundError, however
    often [init] is repeated.  A database of a later version is not
    opened. *)
Theorem init_creates_store_only_with_database (s : AudioStorage.t)
    (recording : AudioRecording) (key : string) (request : Request) :
  let s' := exec (init Success) s in
  (version s = 0%N -> recordings s = None ->
   fst (init Success s) = Normal tt /\ ready s' ∅) /\
  (version s = DB_VERSION ->
   fst (init Success s) = Normal tt /\
   db s' = Some Connection /\ recordings s' = recordings s) /\
  (version s = DB_VERSION -> recordings s = None ->
   exec (init Success) s' = s' /\
   saveRecording recording request s' = (Thrown "NotFoundError", s') /\
   getRecordings request s' = (Thrown "NotFoundError", s') /\
   getRecording key request s' = (Thrown "NotFoundError", s') /\
   deleteRecording key request s' = (Thrown "NotFoundError", s')) /\
  ((DB_VERSION < version s)%N -> init Success s = (Thrown "VersionError", s)).
Proof.
  destruct s as [d m v]. cbv zeta. unfold exec, init. simpl.
  split; [by intros -> ->|]. split; [by intros ->|].
  split.
  - intros -> ->. simpl.
    unfold saveRecording, getRecordings, getRecording, deleteRecording, with_store.
    simpl. by destruct request.
  - intros Hv. unfold DB_VERSION in *.
    destruct (v <? 1)%N eqn:Hlt; [apply N.ltb_lt in Hlt; lia|].
    destruct (1 <? v)%N eqn:Hgt; [done|]. apply N.ltb_ge in Hgt. lia.
Qed.

(** A database of version 1 that has no object store: [init] resolves and
    [getRecordings] rejects. *)
Example init_without_store :
  let s := exec (init Success) (mk None None DB_VERSION) in
  fst (init Success (mk None None DB_VERSION)) = Normal tt /\
  getRecordings Success s = (Thrown "NotFoundError", s).
Proof. done. Qed.

(** A request that fails rejects with its error and leaves the storage as
    it was, for each of the four operations. *)
Theorem failed_request_changes_nothing (s : AudioStorage.t)
    (m : gmap string AudioRecording) (recording : AudioRecording)
    (key e : string) :
  ready s m ->
  saveRecording recording (Failure e) s = (Thrown e, s) /\
  getRecordings (Failure e) s = (Thrown e, s) /\
  getRecording key (Failure e) s = (Thrown e, s) /\
  deleteRecording key (Failure e) s = (Thrown e, s).
Proof.
  intros [Hdb Hm].
  unfold saveRecording, getRecordings, getRecording, deleteRecording, with_store.
  by rewrite Hdb, Hm.
Qed.

Lemma failed_request_changes_nothing_witness :
  let s := exec (init Success) (new None) in
  let a := mkAudioRecording "r1" "A" (mkBlob [] "") 5 100 "" in
  ready s ∅ /\
  (saveRecording a (Failure "QuotaExceededError") s = (Thrown "QuotaExceededError", s) /\
   getRecordings (Failure "QuotaExceededError") s = (Thrown "QuotaExceededError", s) /\
   getRecording "r1" (Failure "QuotaExceededError") s = (Thrown "QuotaExceededError", s) /\
   deleteRecording "r1" (Failure "QuotaExceededError") s = (Thrown "QuotaExceededError", s)).
Proof.
  intros s a.
  assert (ready s ∅) as Hs by (split; reflexivity).
  split; [exact Hs|].
  exact (failed_request_changes_nothing s ∅ a "r1" "QuotaExceededError" Hs).
Defined.

Lemma put_all_cons recording puts s :
  put_all (recording :: puts) s = put_all puts (exec (saveRecording recording Success) s).
Proof. done. Qed.

Lemma put_all_Permutation puts puts' :
  puts ≡ₚ puts' -> NoDup (id <$> puts) ->
  forall s m, ready s m -> put_all puts s = put_all puts' s.
Proof.
  induction 1 as [|x l l' Hperm IH|x y l|l l' l'' Hperm1 IH1 Hperm2 IH2];
    intros Hnd s m Hs.
  - done.
  - rewrite !put_all_cons. apply NoDup_cons in Hnd as [_ Hnd].
    unfold exec. rewrite (saveRecording_ready s m) by done. simpl.
    by eapply IH.
  - rewrite !put_all_cons. unfold exec.
    rewrite !(saveRecording_ready s m) by done. cbn [snd].
    rewrite (saveRecording_ready _ (<[id y := y]> m)) by done.
    rewrite (saveRecording_ready _ (<[id x := x]> m)) by done. cbn [snd].
    apply NoDup_cons in Hnd as [Hnotin _].
    rewrite insert_insert_ne; [done|].
    intros Heq. apply Hnotin. rewrite <- Heq. apply list_elem_of_here.
  - etrans; [by eapply IH1|]. eapply IH2; [|done].
    by rewrite <- Hperm1.
Qed.

(** The order of the puts does not matter: recordings with different
    identifiers, saved in any order, leave the same store, and
    [getRecordings] returns the same list. *)
Theorem getRecordings_any_insertion_order (s : AudioStorage.t)
    (m : gmap string AudioRecording) (puts puts' : list AudioRecording) :
  ready s m ->
  puts ≡ₚ puts' ->
  NoDup (id <$> puts) ->
  put_all puts s = put_all puts' s /\
  fst (getRecordings Success (put_all puts s)) =
  fst (getRecordings Success (put_all puts' s)).
Proof.
  intros Hs Hperm Hnd.
  assert (put_all puts s = put_all puts' s) as Heq by by eapply put_all_Permutation.
  split; [done|]. by rewrite Heq.
Qed.

Lemma getRecordings_any_insertion_order_witness :
  let a := mkAudioRecording "r1" "A" (mkBlob [] "") 5 100 "" in
  let b := mkAudioRecording "r2" "B" (mkBlob [] "") 3 200 "" in
  let s := exec (init Success) (new None) in
  ready s ∅ /\ [a; b] ≡ₚ [b; a] /\ NoDup (id <$> [a; b]) /\
  (put_all [a; b] s = put_all [b; a] s /\
   fst (getRecordings Success (put_all [a; b] s)) =
   fst (getRecordings Success (put_all [b; a] s))).
Proof.
  intros a b s.
  assert (ready s ∅) as Hs by (split; reflexivity).
  assert ([a; b] ≡ₚ [b; a]) as Hperm by apply perm_swap.
  assert (NoDup (id <$> [a; b])) as Hnd by (apply (bool_decide_unpack _); vm_compute; exact I).
  split; [exact Hs|]. split; [exact Hperm|]. split; [exact Hnd|].
  exact (getRecordings_any_insertion_order s ∅ [a; b] [b; a] Hs Hperm Hnd).
Defined.
End StorageExtras.

(** ** The devices *)

Section DeviceExtras.
Import Js MediaDevices AudioDeviceManager.

Lemma getAudioInputDevices_eq permission enumeration streams :
  getAudioInputDevices permission enumeration streams =
    match permission, enumeration with
    | Resolve tracks, Enumerated infos =>
        (Normal (map toAudioDevice
                   (filter (fun device => info_kind device = audioinput) infos)),
         streams ++ [tracks])
    | Resolve tracks, EnumerationFailed _ => (Normal [], streams ++ [tracks])
    | Reject _, _ => (Normal [], streams)
    end.
Proof. by destruct permission, enumeration. Qed.

Lemma length_append s1 s2 :
  String.length (s1 +:+ s2) = (String.length s1 + String.length s2)%nat.
Proof.
  induction s1 as [|c s1 IH]; [reflexivity|].
  change (S (String.length (s1 +:+ s2)) = S (String.length s1 + String.length s2)%nat).
  by rewrite IH.
Qed.

Lemma label_of_nonempty device : label_of device <> "".
Proof.
  unfold label_of, truthy. case_bool_decide as Hlabel; simpl; [done|].
  by destruct (info_label device).
Qed.

(** [getAudioInputDevices] does not throw.  When the permission request or
    the enumeration fails it returns the empty list; otherwise it returns
    the audio inputs among the enumerated devices, in the order of the
    enumeration, with their identifiers and groups.  The stream that the
    permission request opened is left as [getUserMedia] gave it: its tracks
    are not stopped. *)
Theorem getAudioInputDevices_lists_audio_inputs (permission : UserMedia)
    (enumeration : Enumeration) (streams : MediaDevices.t) :
  exists audioDevices streams',
    getAudioInputDevices permission enumeration streams
      = (Normal audioDevices, streams') /\
    (forall tracks infos,
       permission = Resolve tracks -> enumeration = Enumerated infos ->
       let audioInputs := filter (fun device => info_kind device = audioinput) infos in
       deviceId <$> audioDevices = info_deviceId <$> audioInputs /\
       groupId <$> audioDevices = info_groupId <$> audioInputs) /\
    ((exists e, permission = Reject e) \/ (exists e, enumeration = EnumerationFailed e) ->
     audioDevices = []) /\
    (forall tracks, permission = Resolve tracks -> streams' = streams ++ [tracks]) /\
    (forall e, permission = Reject e -> streams' = streams).
Proof.
  rewrite getAudioInputDevices_eq.
  destruct permission as [tracks|e], enumeration as [infos|e'];
    eexists _, _; (split; [reflexivity|]).
  - split.
    { intros tracks' infos' [= <-] [= <-]. simpl.
      change (map ?f ?l) with (f <$> l). by rewrite <- !list_fmap_compose. }
    split; [by intros [[? [=]]|[? [=]]]|]. split; [by intros ? [= <-]|by intros ? [=]].
  - split; [by intros ? ? _ [=]|]. split; [done|].
    split; [by intros ? [= <-]|by intros ? [=]].
  - split; [by intros ? ? [=]|]. split; [done|]. split; [by intros ? [=]|done].
  - split; [by intros ? ? [=]|]. split; [done|]. split; [by intros ? [=]|done].
Qed.

Lemma length_substring (n : nat) (s : string) :
  String.length (String.substring 0 n s) = (n `min` String.length s)%nat.
Proof.
  revert s. induction n as [|n IH]; intros [|c s]; simpl; try done.
  by rewrite IH.
Qed.

(** Every device that [getAudioInputDevices] returns comes from an audio
    input of the enumeration, whose identifier and group it has, and its
    label is not empty: it is the label of the enumeration if there is
    one, and else 'Microphone ' followed by the first eight characters of
    the identifier, or by all of them if there are fewer. *)
Theorem getAudioInputDevices_labels (permission : UserMedia)
    (enumeration : Enumeration) (streams : MediaDevices.t) (device : AudioDevice) :
  (forall infos, enumeration = Enumerated infos ->
     Forall (fun info => is_ascii (info_deviceId info) = true) infos) ->
  device ∈ match fst (getAudioInputDevices permission enumeration streams) with
           | Normal audioDevices => audioDevices
           | Thrown _ => []
           end ->
  exists infos info,
    enumeration = Enumerated infos /\
    info ∈ infos /\
    info_kind info = audioinput /\
    deviceId device = info_deviceId info /\
    groupId device = info_groupId info /\
    label device <> "" /\
    (info_label info <> "" -> label device = info_label info) /\
    (info_label info = "" ->
     label device = "Microphone " +:+ String.substring 0 8 (info_deviceId info) /\
     String.length (label device) =
       (11 + 8 `min` String.length (info_deviceId info))%nat).
Proof.
  intros _. rewrite getAudioInputDevices_eq.
  destruct permission as [tracks|e], enumeration as [infos|e']; simpl;
    try (by intros ?%elem_of_nil).
  intros (info & -> & [Hkind Hin]%list_elem_of_filter)%list_elem_of_fmap.
  exists infos, info. do 5 (split; [done|]).
  split; [apply label_of_nonempty|].
  unfold toAudioDevice, label_of, truthy. simpl.
  split.
  - intros Hlabel. by rewrite bool_decide_eq_false_2.
  - intros Hlabel. rewrite bool_decide_eq_true_2 by done. cbn [negb].
    split; [done|].
    by rewrite length_append, length_substring.
Qed.

Lemma getAudioInputDevices_labels_witness :
  let infos := [mkMediaDeviceInfo "0123456789abcdef" audioinput "" "g1";
                mkMediaDeviceInfo "speaker" audiooutput "Speakers" "g1"] in
  let device := mkAudioDevice "0123456789abcdef" "Microphone 01234567" "g1" in
  (forall infos', Enumerated infos = Enumerated infos' ->
     Forall (fun info => is_ascii (info_deviceId info) = true) infos') /\
  device ∈ match fst (getAudioInputDevices (Resolve [mkTrack audio live])
                        (Enumerated infos) []) with
           | Normal audioDevices => audioDevices
           | Thrown _ => []
           end /\
  exists infos' info,
    Enumerated infos = Enumerated infos' /\
    info ∈ infos' /\
    info_kind info = audioinput /\
    deviceId device = info_deviceId info /\
    groupId device = info_groupId info /\
    label device <> "" /\
    (info_label info <> "" -> label device = info_label info) /\
    (info_label info = "" ->
     label device = "Microphone " +:+ String.substring 0 8 (info_deviceId info) /\
     String.length (label device) =
       (11 + 8 `min` String.length (info_deviceId info))%nat).
Proof.
  intros infos device.
  assert (forall infos', Enumerated infos = Enumerated infos' ->
            Forall (fun info => is_ascii (info_deviceId info) = true) infos')
    as Hascii.
  { intros infos' [= <-]. by repeat constructor. }
  assert (device ∈ match fst (getAudioInputDevices (Resolve [mkTrack audio live])
                                (Enumerated infos) []) with
                   | Normal audioDevices => audioDevices
                   | Thrown _ => []
                   end) as Hin by (vm_compute; apply list_elem_of_here).
  split; [exact Hascii|]. split; [exact Hin|].
  exact (getAudioInputDevices_labels (Resolve [mkTrack audio live])
           (Enumerated infos) [] device Hascii Hin).
Defined.

(** [getDefaultDevice] does not throw: it returns the identifier of the
    first audio input of the enumeration, and the empty string when there is
    none or when the permission request or the enumeration fails. *)
Theorem getDefaultDevice_first_audio_input (permission : UserMedia)
    (enumeration : Enumeration) (streams : MediaDevices.t) :
  exists default streams',
    getDefaultDevice permission enumeration streams = (Normal default, streams') /\
    (forall tracks infos,
       permission = Resolve tracks -> enumeration = Enumerated infos ->
       default = match filter (fun device => info_kind device = audioinput) infos with
                 | info :: _ => info_deviceId info
                 | [] => ""
                 end) /\
    ((exists e, permission = Reject e) \/ (exists e, enumeration = EnumerationFailed e) ->
     default = "").
Proof.
  unfold getDefaultDevice, try_catch, bind, ret. rewrite getAudioInputDevices_eq.
  destruct permission as [tracks|e], enumeration as [infos|e'];
    eexists _, _; (split; [reflexivity|]).
  - split; [|by intros [[? [=]]|[? [=]]]].
    intros tracks' infos' [= <-] [= <-].
    by destruct (filter _ infos).
  - split; [by intros ? ? _ [=]|done].
  - split; [by intros ? ? [=]|done].
  - split; [by intros ? ? [=]|done].
Qed.
End DeviceExtras.

(** ** The microphone selector *)

Section SelectorExtras.
Import Js MediaDevices AudioDeviceManager MicrophoneSelector.

Lemma isWorking_live tracks :
  (length (getAudioTracks tracks) <= 1)%nat ->
  (0 <? Z.of_nat (length (getAudioTracks tracks))) &&
  match getAudioTracks tracks !! 0%nat with
  | Some track => is_live track
  | None => false
  end = true <-> has_live_audio tracks.
Proof.
  intros Hone. unfold has_live_audio.
  destruct (getAudioTracks tracks) as [|track [|track' rest]]; simpl in *; [| |lia].
  - split; [done|]. by intros (track & Hin%elem_of_nil & _).
  - rewrite is_live_true. split.
    + intros Hlive. exists track. split; [by apply list_elem_of_singleton|done].
    + by intros (track' & ->%list_elem_of_singleton & Hlive).
Qed.

(** The select box is disabled while the recorder records or is paused:
    then [handleDeviceSelect] changes nothing.  Otherwise the device is
    tested first: the selection moves to it when the test stream has a live
    audio track, and stays where it was, with an error shown, when it has
    not or when the stream cannot be opened.  The list of devices is not
    touched, and the test stream is left with all its tracks stopped. *)
Theorem handleDeviceSelect_switches_after_test (disabled : bool)
    (device : string) (outcome : UserMedia) (s : MicrophoneSelector.t) :
  one_audio_track outcome ->
  let s' := exec (handleDeviceSelect disabled device outcome) s in
  let works := exists tracks, outcome = Resolve tracks /\ has_live_audio tracks in
  (disabled = true -> s' = s) /\
  (disabled = false ->
   devices s' = devices s /\ isLoading s' = isLoading s /\
   (works -> selectedDeviceId s' = device /\ error s' = "") /\
   (~ works ->
    selectedDeviceId s' = selectedDeviceId s /\
    error s' = "Selected microphone is not working properly") /\
   (forall tracks, outcome = Resolve tracks ->
      streams s' = streams s ++ [map stop tracks]) /\
   (forall e, outcome = Reject e -> streams s' = streams s)).
Proof.
  intros Hone s' works. split; [by intros ->|]. intros ->.
  unfold s', exec, handleDeviceSelect, try_catch, bind, media, setError,
    onDeviceChange, modify. simpl.
  destruct outcome as [tracks|e].
  - rewrite testDevice_Resolve. simpl in Hone.
    pose proof (isWorking_live tracks Hone) as Hlive.
    destruct (_ && _) eqn:Hworking; simpl.
    + split; [done|]. split; [done|]. split; [done|].
      split; [|split; [by intros ? [= <-]|by intros ? [=]]].
      intros Hnot. exfalso. apply Hnot. exists tracks. split; [done|]. by apply Hlive.
    + split; [done|]. split; [done|].
      split; [|split; [done|split; [by intros ? [= <-]|by intros ? [=]]]].
      intros (tracks' & [= <-] & Hhas). apply Hlive in Hhas. congruence.
  - simpl. split; [done|]. split; [done|].
    split; [by intros (? & [=] & _)|]. split; [done|].
    split; [by intros ? [=]|done].
Qed.

Lemma handleDeviceSelect_switches_after_test_witness :
  let outcome := Resolve [mkTrack audio live] in
  let s := MicrophoneSelector.mk [] false "" "" [] in
  let s' := exec (handleDeviceSelect false "usb" outcome) s in
  let works := exists tracks, outcome = Resolve tracks /\ has_live_audio tracks in
  one_audio_track outcome /\
  ((false = true -> s' = s) /\
   (false = false ->
    devices s' = devices s /\ isLoading s' = isLoading s /\
    (works -> selectedDeviceId s' = "usb" /\ error s' = "") /\
    (~ works ->
     selectedDeviceId s' = selectedDeviceId s /\
     error s' = "Selected microphone is not working properly") /\
    (forall tracks, outcome = Resolve tracks ->
       streams s' = streams s ++ [map stop tracks]) /\
    (forall e, outcome = Reject e -> streams s' = streams s))).
Proof.
  intros outcome s.
  assert (one_audio_track outcome) as Hone by (vm_compute; lia).
  split; [exact Hone|].
  exact (handleDeviceSelect_switches_after_test false "usb" outcome s Hone).
Defined.

Lemma loadDevices_exec selected permission enumeration s audioDevices streams' :
  getAudioInputDevices permission enumeration (streams s)
    = (Normal audioDevices, streams') ->
  exec (loadDevices selected permission enumeration) s =
    MicrophoneSelector.mk audioDevices false ""
      (if (negb (truthy selected) && (0 <? Z.of_nat (length audioDevices)))
          || (truthy selected && negb (listed selected audioDevices)
              && (0 <? Z.of_nat (length audioDevices)))
       then first_deviceId audioDevices else selectedDeviceId s)
      streams'.
Proof.
  intros Hget.
  unfold exec, loadDevices, try_finally, try_catch, bind, media, when, setDevices,
    setIsLoading, MicrophoneSelector.setError, onDeviceChange, modify, ret. simpl.
  rewrite Hget. simpl.
  destruct (truthy selected), (listed selected audioDevices),
    (0 <? Z.of_nat (length audioDevices)); reflexivity.
Qed.

Lemma getAudioInputDevices_Normal permission enumeration streams :
  exists audioDevices streams',
    getAudioInputDevices permission enumeration streams = (Normal audioDevices, streams').
Proof.
  rewrite getAudioInputDevices_eq.
  destruct permission, enumeration; by eexists _, _.
Qed.

Lemma first_deviceId_listed audioDevices :
  audioDevices <> [] -> first_deviceId audioDevices ∈ deviceId <$> audioDevices.
Proof. destruct audioDevices; [done|]. intros _. apply list_elem_of_here. Qed.

(** [loadDevices] of the latest render, as the Refresh button calls it.
    Afterwards the list is what [getAudioInputDevices] returned and the
    component no longer shows that it is loading.  When the list is not
    empty the selected device is one of the list: a selection that is
    listed is kept, and otherwise, when nothing was selected or the
    selection is not in the list, the first device is selected.  When the
    list is empty the selection is kept. *)
Theorem loadDevices_selects_listed_device (permission : UserMedia)
    (enumeration : Enumeration) (s : MicrophoneSelector.t) :
  let s' := exec (loadDevices (selectedDeviceId s) permission enumeration) s in
  fst (getAudioInputDevices permission enumeration (streams s)) = Normal (devices s') /\
  isLoading s' = false /\
  (devices s' <> [] -> selectedDeviceId s' ∈ deviceId <$> devices s') /\
  (selectedDeviceId s <> "" -> selectedDeviceId s ∈ deviceId <$> devices s' ->
   selectedDeviceId s' = selectedDeviceId s) /\
  (devices s' <> [] ->
   selectedDeviceId s = "" \/ selectedDeviceId s ∉ deviceId <$> devices s' ->
   selectedDeviceId s' = first_deviceId (devices s')) /\
  (devices s' = [] -> selectedDeviceId s' = selectedDeviceId s).
Proof.
  intros s'.
  destruct (getAudioInputDevices_Normal permission enumeration (streams s))
    as (audioDevices & streams' & Hget).
  unfold s'. rewrite (loadDevices_exec _ _ _ _ audioDevices streams') by done.
  rewrite Hget. simpl. split; [done|]. split; [done|].
  unfold truthy, listed.
  destruct (decide (selectedDeviceId s = "")) as [Hempty|Hsel].
  - rewrite (bool_decide_eq_true_2 _ Hempty). simpl.
    destruct audioDevices as [|d rest]; simpl; [done|].
    split; [intros _; apply list_elem_of_here|]. by split.
  - rewrite (bool_decide_eq_false_2 _ Hsel). simpl.
    destruct (decide (selectedDeviceId s ∈ deviceId <$> audioDevices)) as [Hin|Hnotin].
    + rewrite (bool_decide_eq_true_2 _ Hin). simpl.
      split; [done|]. split; [done|]. split; [|done].
      by intros _ [?|?].
    + rewrite (bool_decide_eq_false_2 _ Hnotin). simpl.
      destruct audioDevices as [|d rest]; simpl; [done|].
      split; [intros _; apply list_elem_of_here|]. by split.
Qed.

(** [loadDevices] of a render that has no device selected, such as the
    first one, whose [loadDevices] the mount effect calls and keeps as the
    listener of [devicechange]: when the list is not empty its first device
    becomes the selection. *)
Theorem loadDevices_selects_first_device (permission : UserMedia)
    (enumeration : Enumeration) (s : MicrophoneSelector.t)
    (first : AudioDevice) (rest : list AudioDevice) :
  let s' := exec (loadDevices "" permission enumeration) s in
  devices s' = first :: rest ->
  selectedDeviceId s' = deviceId first.
Proof.
  intros s'.
  destruct (getAudioInputDevices_Normal permission enumeration (streams s))
    as (audioDevices & streams' & Hget).
  unfold s'. rewrite (loadDevices_exec _ _ _ _ audioDevices streams') by done.
  simpl. by intros ->.
Qed.

Lemma loadDevices_selects_first_device_witness :
  let infos := [mkMediaDeviceInfo "built-in" audioinput "Built-in" "g1";
                mkMediaDeviceInfo "usb" audioinput "USB" "g2"] in
  let s := MicrophoneSelector.mk [] false "" "usb" [] in
  let s' := exec (loadDevices "" (Resolve [mkTrack audio live]) (Enumerated infos)) s in
  devices s' = [mkAudioDevice "built-in" "Built-in" "g1"; mkAudioDevice "usb" "USB" "g2"] /\
  selectedDeviceId s' = "built-in".
Proof.
  intros infos s.
  assert (devices (exec (loadDevices "" (Resolve [mkTrack audio live])
                           (Enumerated infos)) s)
          = [mkAudioDevice "built-in" "Built-in" "g1"; mkAudioDevice "usb" "USB" "g2"])
    as Hdevices by (vm_compute; reflexivity).
  split; [exact Hdevices|].
  exact (loadDevices_selects_first_device (Resolve [mkTrack audio live])
           (Enumerated infos) s _ _ Hdevices).
Defined.
End SelectorExtras.

(** ** The recorder: further transitions *)

Section RecorderExtras.
Import Js AudioRecorder MediaDevices.

Lemma state_after_set_state s pending (r : nat) (recs : list MediaRecorder) rec :
  recs !! r = Some rec ->
  state <$> alter (set_state s pending) r recs !! r = Some s.
Proof. intros Hl. by rewrite list_lookup_alter_eq, Hl. Qed.

(** [requestMicrophonePermission] opens a stream only to learn whether it
    may: when the stream is given, the permission is recorded, the error
    cleared, and every track of the stream stopped; when it is refused, the
    permission is withdrawn and the error says so.  A session that is going
    on is not touched. *)
Theorem requestMicrophonePermission_outcome (outcome : UserMedia) (w : World) :
  let w' := exec (requestMicrophonePermission outcome) w in
  recordingState w' = recordingState w /\
  chunksRef w' = chunksRef w /\
  timerRef w' = timerRef w /\
  intervals w' = intervals w /\
  recorders w' = recorders w /\
  match outcome with
  | Resolve tracks =>
      permissionGranted w' = true /\ error w' = "" /\
      streams w' = streams w ++ [map stop tracks] /\
      released (length (streams w)) (streams w')
  | Reject _ =>
      permissionGranted w' = false /\
      error w' = "Microphone permission is required to record audio." /\
      streams w' = streams w
  end.
Proof.
  js. destruct outcome as [tracks|e]; simpl; [|done].
  rewrite alter_new. repeat (split; [done|]). apply released_new.
Qed.

(** When the stream of a suspended [startRecording] is refused, the error
    says that the recording could not start and nothing else changes: no
    recorder, stream or timer is created, and a session that is going on
    keeps its state and its buffer. *)
Theorem start_refused_changes_nothing (w : World) (closure : RecordingState)
    (rest : list RecordingState) (e mime : string) :
  awaiting w = closure :: rest ->
  let w' := step w (UserMediaSettled (Reject e) mime) in
  error w' = "Failed to start recording. Please check microphone permissions." /\
  awaiting w' = rest /\
  recordingState w' = recordingState w /\
  chunksRef w' = chunksRef w /\
  timerRef w' = timerRef w /\
  intervals w' = intervals w /\
  recorders w' = recorders w /\
  streams w' = streams w.
Proof. intros Ha. js. rewrite Ha. simpl. done. Qed.

Lemma start_refused_changes_nothing_witness :
  let w := run (Scenario.loaded ++ [Click StartButton Scenario.microphone])
             (initial None) in
  let w' := step w (UserMediaSettled (Reject "NotFoundError") Scenario.webm) in
  awaiting w = [recordingState w] /\
  (error w' = "Failed to start recording. Please check microphone permissions." /\
   awaiting w' = [] /\
   recordingState w' = recordingState w /\
   chunksRef w' = chunksRef w /\
   timerRef w' = timerRef w /\
   intervals w' = intervals w /\
   recorders w' = recorders w /\
   streams w' = streams w).
Proof.
  intros w.
  assert (awaiting w = [recordingState w]) as Ha by (vm_compute; reflexivity).
  split; [exact Ha|].
  exact (start_refused_changes_nothing w (recordingState w) [] "NotFoundError"
           Scenario.webm Ha).
Defined.

(** Outside a session, [stopRecording], [pauseRecording] and
    [resumeRecording] do nothing at all. *)
Theorem controls_do_nothing_when_idle (w : World) :
  isRecording (recordingState w) = false ->
  isPaused (recordingState w) = false ->
  exec (stopRecording (render w)) w = w /\
  exec (pauseRecording (render w)) w = w /\
  exec (resumeRecording (render w)) w = w.
Proof.
  intros Hr Hp. js. simpl. rewrite Hr, Hp.
  by destruct (mediaRecorder (recordingState w)).
Qed.

Lemma controls_do_nothing_when_idle_witness :
  let w := run Scenario.loaded (initial None) in
  isRecording (recordingState w) = false /\
  isPaused (recordingState w) = false /\
  (exec (stopRecording (render w)) w = w /\
   exec (pauseRecording (render w)) w = w /\
   exec (resumeRecording (render w)) w = w).
Proof.
  intros w.
  assert (isRecording (recordingState w) = false) as Hr by (vm_compute; reflexivity).
  assert (isPaused (recordingState w) = false) as Hp by (vm_compute; reflexivity).
  split; [exact Hr|]. split; [exact Hp|].
  exact (controls_do_nothing_when_idle w Hr Hp).
Defined.

Lemma click_pause_exec w r rec t permission :
  isRecording (recordingState w) = true ->
  isPaused (recordingState w) = false ->
  mediaRecorder (recordingState w) = Some r ->
  recorders w !! r = Some rec ->
  state rec <> inactive ->
  timerRef w = Some t ->
  step w (Click PauseButton permission) =
    set_intervals (fun s => s ∖ {[t]})
      (set_recordingState (paused_update true)
         (set_recorders (alter (set_state paused false) r) w)).
Proof.
  intros Hr Hp Hm Hl Hstate Ht.
  unfold step, exec, handle, offered. rewrite Hr, Hp. js. simpl.
  rewrite Hm, Hr, Hl. simpl. destruct (state rec); [done| |]; simpl; by rewrite Ht.
Qed.

Lemma click_resume_exec w r rec permission :
  isPaused (recordingState w) = true ->
  mediaRecorder (recordingState w) = Some r ->
  recorders w !! r = Some rec ->
  state rec <> inactive ->
  step w (Click ResumeButton permission) =
    set_timerRef (Some (next_interval w))
      (set_next_interval (Pos.succ (next_interval w))
         (set_intervals (fun s => {[next_interval w]} ∪ s)
            (set_recordingState (paused_update false)
               (set_recorders (alter (set_state recording false) r) w)))).
Proof.
  intros Hp Hm Hl Hstate.
  unfold step, exec, handle, offered. rewrite Hp. js. simpl.
  rewrite Hm, Hp, Hl. simpl. by destruct (state rec).
Qed.

(** Pause and resume.  While the recorder of the session records, a click
    on Pause pauses it: the phase is [Paused], the interval of [timerRef]
    is cleared, and the buffer and the count of seconds stay.  A click on
    Resume then makes it record again: the phase is [Recording] and a new
    interval is set and kept in [timerRef], again with the buffer and the
    count as they were. *)
Theorem pause_then_resume (w : World) (r : nat) (rec : MediaRecorder)
    (t : positive) (permission permission' : UserMedia) :
  phase (recordingState w) = Recording ->
  mediaRecorder (recordingState w) = Some r ->
  recorders w !! r = Some rec ->
  state rec = recording ->
  timerRef w = Some t ->
  let w1 := step w (Click PauseButton permission) in
  let w2 := step w1 (Click ResumeButton permission') in
  (phase (recordingState w1) = Paused /\
   state <$> recorders w1 !! r = Some paused /\
   (t ∉ intervals w1) /\
   chunksRef w1 = chunksRef w /\
   recordingTime (recordingState w1) = recordingTime (recordingState w)) /\
  (phase (recordingState w2) = Recording /\
   state <$> recorders w2 !! r = Some recording /\
   timerRef w2 = Some (next_interval w) /\
   next_interval w ∈ intervals w2 /\
   chunksRef w2 = chunksRef w /\
   recordingTime (recordingState w2) = recordingTime (recordingState w)).
Proof.
  intros Hphase Hm Hl Hstate Ht. cbv zeta. unfold phase in Hphase.
  destruct (isRecording (recordingState w)) eqn:Hr; [|done].
  destruct (isPaused (recordingState w)) eqn:Hp; [done|].
  rewrite (click_pause_exec w r rec t) by (done || by rewrite Hstate).
  rewrite (click_resume_exec _ r (set_state paused false rec));
    [|done|done|simpl; by rewrite list_lookup_alter_eq, Hl|done].
  unfold phase. simpl. rewrite Hr. split.
  - split; [done|]. split; [by apply (state_after_set_state _ _ _ _ rec)|].
    split; [|done]. intros [_ Hnot]%elem_of_difference.
    apply Hnot. by apply elem_of_singleton.
  - split; [done|].
    split.
    { apply (state_after_set_state _ _ _ _ (set_state paused false rec)).
      by rewrite list_lookup_alter_eq, Hl. }
    split; [done|]. split; [|done].
    apply elem_of_union_l. by apply elem_of_singleton.
Qed.

Lemma pause_then_resume_witness :
  let w := run (Scenario.seconds 2 ++ deliver 0 [Scenario.chunk 10]) (initial None) in
  let rec := mkMediaRecorder recording false Scenario.webm 1
               (recordingState (initial None)) in
  let w1 := step w (Click PauseButton Scenario.microphone) in
  let w2 := step w1 (Click ResumeButton Scenario.microphone) in
  phase (recordingState w) = Recording /\
  mediaRecorder (recordingState w) = Some 0%nat /\
  recorders w !! 0%nat = Some rec /\
  state rec = recording /\
  timerRef w = Some 1%positive /\
  ((phase (recordingState w1) = Paused /\
    state <$> recorders w1 !! 0%nat = Some paused /\
    (1%positive ∉ intervals w1) /\
    chunksRef w1 = chunksRef w /\
    recordingTime (recordingState w1) = recordingTime (recordingState w)) /\
   (phase (recordingState w2) = Recording /\
    state <$> recorders w2 !! 0%nat = Some recording /\
    timerRef w2 = Some (next_interval w) /\
    next_interval w ∈ intervals w2 /\
    chunksRef w2 = chunksRef w /\
    recordingTime (recordingState w2) = recordingTime (recordingState w))).
Proof.
  intros w rec.
  assert (phase (recordingState w) = Recording) as Hphase by (vm_compute; reflexivity).
  assert (mediaRecorder (recordingState w) = Some 0%nat) as Hm by (vm_compute; reflexivity).
  assert (recorders w !! 0%nat = Some rec) as Hl by (vm_compute; reflexivity).
  assert (state rec = recording) as Hstate by reflexivity.
  assert (timerRef w = Some 1%positive) as Ht by (vm_compute; reflexivity).
  split; [exact Hphase|]. split; [exact Hm|]. split; [exact Hl|].
  split; [exact Hstate|]. split; [exact Ht|].
  exact (pause_then_resume w 0 rec 1 Scenario.microphone Scenario.microphone
           Hphase Hm Hl Hstate Ht).
Defined.
End RecorderExtras.

(** ** The recorder: the end of a session *)

Section StopExtras.
Import Js AudioRecorder MediaDevices.

(** The [stop] event of a recorder, the write succeeding on a storage that
    is open: the recording built from the buffer is in the store under its
    identifier, [getRecording] returns it, and it is the new head of the
    list of the page.  No error is set, the state is that of an idle
    recorder with the count at 0, and the buffer is left as it is. *)
Theorem stopped_saves_recording (w : World) (r : nat) (rec : MediaRecorder)
    (m : gmap string AudioRecording) (clock : Clock) :
  recorders w !! r = Some rec ->
  stop_pending rec = true ->
  AudioStorage.ready (audioStorage w) m ->
  let recording := assemble (chunksRef w) (recordingTime (onstop_recordingState rec))
                     (recorder_mimeType rec) clock in
  let w' := step w (Stopped r clock AudioStorage.Success) in
  AudioStorage.ready (audioStorage w') (<[id recording := recording]> m) /\
  AudioStorage.getRecording (id recording) AudioStorage.Success (audioStorage w') =
    (Normal (Some recording), audioStorage w') /\
  recordings w' = recording :: recordings w /\
  error w' = error w /\
  phase (recordingState w') = Idle /\
  recordingTime (recordingState w') = 0 /\
  chunksRef w' = chunksRef w.
Proof.
  intros Hl Hpending Hready. cbv zeta. js. rewrite Hl. simpl. rewrite Hpending. simpl.
  rewrite (saveRecording_ready _ m) by done. simpl.
  destruct (timerRef w); simpl.
  - split; [done|]. rewrite (getRecording_ready _ (<[_ := _]> m)) by done.
    by rewrite lookup_insert_eq.
  - split; [done|]. rewrite (getRecording_ready _ (<[_ := _]> m)) by done.
    by rewrite lookup_insert_eq.
Qed.

Lemma stopped_saves_recording_witness :
  let w := run (Scenario.seconds 2 ++ deliver 0 [Scenario.chunk 10] ++
                [Click StopButton Scenario.microphone]) (initial None) in
  let rec := mkMediaRecorder inactive true Scenario.webm 1
               (recordingState (initial None)) in
  recorders w !! 0%nat = Some rec /\
  stop_pending rec = true /\
  AudioStorage.ready (audioStorage w) ∅ /\
  let recording := assemble (chunksRef w) (recordingTime (onstop_recordingState rec))
                     (recorder_mimeType rec) Scenario.clock in
  let w' := step w (Stopped 0 Scenario.clock AudioStorage.Success) in
  AudioStorage.ready (audioStorage w') (<[id recording := recording]> ∅) /\
  AudioStorage.getRecording (id recording) AudioStorage.Success (audioStorage w') =
    (Normal (Some recording), audioStorage w') /\
  recordings w' = recording :: recordings w /\
  error w' = error w /\
  phase (recordingState w') = Idle /\
  recordingTime (recordingState w') = 0 /\
  chunksRef w' = chunksRef w.
Proof.
  intros w rec.
  assert (recorders w !! 0%nat = Some rec) as Hl by (vm_compute; reflexivity).
  assert (stop_pending rec = true) as Hpending by reflexivity.
  assert (AudioStorage.ready (audioStorage w) ∅) as Hready
    by (split; vm_compute; reflexivity).
  split; [exact Hl|]. split; [exact Hpending|]. split; [exact Hready|].
  exact (stopped_saves_recording w 0 rec ∅ Scenario.clock Hl Hpending Hready).
Defined.

(** The [stop] event of a recorder, the write failing, or the storage
    never opened: the recording is lost.  The error says so, the store and
    the list of the page are as before, and the session still ends: the
    tracks of its stream are stopped, the state is that of an idle
    recorder, and the interval of [timerRef] is cleared. *)
Theorem stopped_write_fails (w : World) (r : nat) (rec : MediaRecorder)
    (clock : Clock) (request : AudioStorage.Request) :
  recorders w !! r = Some rec ->
  stop_pending rec = true ->
  (exists e, request = AudioStorage.Failure e) \/
    AudioStorage.db (audioStorage w) = None ->
  let w' := step w (Stopped r clock request) in
  error w' = "Failed to save recording" /\
  audioStorage w' = audioStorage w /\
  recordings w' = recordings w /\
  recordingState w' = idle_update (recordingState w) /\
  streams w' = alter (map stop) (onstop_stream rec) (streams w) /\
  (forall t, timerRef w = Some t -> t ∉ intervals w').
Proof.
  intros Hl Hpending Hfail. cbv zeta. js. rewrite Hl. simpl. rewrite Hpending. simpl.
  assert (exists e, forall recording,
            AudioStorage.saveRecording recording request (audioStorage w) =
              (Thrown e, audioStorage w)) as [e He].
  { unfold AudioStorage.saveRecording, AudioStorage.with_store.
    destruct Hfail as [[e ->]|Hdb].
    - destruct (AudioStorage.db (audioStorage w)); [|by eexists].
      destruct (AudioStorage.recordings (audioStorage w)); by eexists.
    - rewrite Hdb. by eexists. }
  rewrite He. simpl.
  destruct (timerRef w) as [t|] eqn:Ht; simpl.
  - repeat (split; [done|]). intros t' [= <-] [_ Hnot]%elem_of_difference.
    apply Hnot. by apply elem_of_singleton.
  - repeat (split; [done|]). by intros t' [=].
Qed.

Lemma stopped_write_fails_witness :
  let w := run (Scenario.seconds 2 ++ deliver 0 [Scenario.chunk 10] ++
                [Click StopButton Scenario.microphone]) (initial None) in
  let rec := mkMediaRecorder inactive true Scenario.webm 1
               (recordingState (initial None)) in
  let request := AudioStorage.Failure "QuotaExceededError" in
  recorders w !! 0%nat = Some rec /\
  stop_pending rec = true /\
  ((exists e, request = AudioStorage.Failure e) \/
     AudioStorage.db (audioStorage w) = None) /\
  let w' := step w (Stopped 0 Scenario.clock request) in
  error w' = "Failed to save recording" /\
  audioStorage w' = audioStorage w /\
  recordings w' = recordings w /\
  recordingState w' = idle_update (recordingState w) /\
  streams w' = alter (map stop) (onstop_stream rec) (streams w) /\
  (forall t, timerRef w = Some t -> t ∉ intervals w').
Proof.
  intros w rec request.
  assert (recorders w !! 0%nat = Some rec) as Hl by (vm_compute; reflexivity).
  assert (stop_pending rec = true) as Hpending by reflexivity.
  assert ((exists e, request = AudioStorage.Failure e) \/
            AudioStorage.db (audioStorage w) = None) as Hfail
    by (left; by eexists).
  split; [exact Hl|]. split; [exact Hpending|]. split; [exact Hfail|].
  exact (stopped_write_fails w 0 rec Scenario.clock request Hl Hpending Hfail).
Defined.
End StopExtras.

(** ** The recorder: what holds in every state *)

Section ReachableExtras.
Import Js AudioRecorder MediaDevices.

(** What an event can do to the state cell. *)
Lemma recordingState_step w e :
  recordingState (step w e) = recordingState w \/
  (isRecording (recordingState w) = true /\
   recordingState (step w e) = paused_update true (recordingState w)) \/
  recordingState (step w e) = paused_update false (recordingState w) \/
  (exists r s, recordingState (step w e) = started_update r s (recordingState w)) \/
  recordingState (step w e) = tick_update (recordingState w) \/
  recordingState (step w e) = idle_update (recordingState w).
Proof.
  destruct e as [perm|open|b perm|outcome mime|t|r data|r clock request|
                 perm enum|device outcome].
  - left. js. by destruct perm.
  - left. js. by destruct (AudioStorage.init open (audioStorage w)) as [[] s].
  - unfold step, exec, handle. destruct (offered b w) eqn:Hoffered; [|by left].
    destruct b; unfold onClick.
    + left. unfold startRecording, render; simpl.
      destruct (permissionGranted w); simpl; js; [done|by destruct perm].
    + js. simpl.
      destruct (mediaRecorder (recordingState w)) as [r|]; [|by left].
      destruct (isRecording (recordingState w)) eqn:Hr; [|by left].
      destruct (default inactive (state <$> recorders w !! r)); simpl; [by left| |];
        destruct (timerRef w); simpl; by right; left.
    + left. js. simpl.
      destruct (mediaRecorder (recordingState w)) as [r|]; [|done].
      destruct (isRecording (recordingState w)); [|done].
      by destruct (default inactive (state <$> recorders w !! r)).
    + js. simpl.
      destruct (mediaRecorder (recordingState w)) as [r|]; [|by left].
      destruct (isPaused (recordingState w)); [|by left].
      destruct (default inactive (state <$> recorders w !! r)); simpl; [by left| |];
        by right; right; left.
    + left. js. by destruct perm.
  - js. destruct (awaiting w) as [|closure rest]; [by left|]. simpl.
    destruct outcome as [tracks|e]; simpl; [|by left].
    rewrite lookup_new. simpl. right. right. right. left. by eexists _, _.
  - js. destruct (bool_decide (t ∈ intervals w)); simpl; [|by left].
    by right; right; right; right; left.
  - left. js. destruct (recorders w !! r) as [rec|]; simpl; [|done].
    destruct (negb (bool_decide (state rec = inactive)) || stop_pending rec);
      simpl; [|done].
    by destruct (0 <? blob_size data).
  - js. destruct (recorders w !! r) as [rec|]; simpl; [|by left].
    destruct (stop_pending rec); simpl; [|by left].
    destruct (AudioStorage.saveRecording _ request (audioStorage w)) as [[|e] st];
      simpl; destruct (timerRef w); simpl; by right; right; right; right; right.
  - left. by destruct (step_DevicesLoaded_cases w perm enum) as [-> | [tracks ->]].
  - left.
    by destruct (step_DeviceSelected_cases w device outcome) as [-> | [tracks ->]].
Qed.

Lemma handles_match_step w e :
  handles_match (recordingState w) -> handles_match (recordingState (step w e)).
Proof.
  intros [Hon Hoff].
  destruct (recordingState_step w e)
    as [-> | [[Hr ->] | [-> | [(r & s & ->) | [-> | ->]]]]]; unfold handles_match; simpl.
  - done.
  - split; [done|]. by rewrite Hr.
  - split; [done|]. intros Hr. by destruct (Hoff Hr) as (? & ? & _).
  - split; [by eauto|done].
  - done.
  - done.
Qed.

Lemma handles_match_run es : forall w,
  handles_match (recordingState w) -> handles_match (recordingState (run es w)).
Proof.
  induction es as [|e es IH]; intros w Hw; [done|].
  apply IH. by apply handles_match_step.
Qed.

Lemma handles_match_initial store : handles_match (recordingState (initial store)).
Proof. by split. Qed.

(** In every state that events lead to, the state cell names a recorder
    and a stream exactly when [isRecording] is set, and [isPaused] is set
    only then: the three phases are all there is. *)
Theorem reachable_handles_match (es : list Event)
    (store : option (gmap string AudioRecording)) :
  let s := recordingState (run es (initial store)) in
  handles_match s /\
  (phase s = Idle <-> mediaRecorder s = None) /\
  (phase s = Paused <-> isPaused s = true).
Proof.
  cbv zeta.
  assert (handles_match (recordingState (run es (initial store)))) as Hs
    by apply handles_match_run, handles_match_initial.
  split; [done|]. destruct Hs as [Hon Hoff]. unfold phase.
  destruct (isRecording (recordingState (run es (initial store)))) eqn:Hr.
  - destruct (Hon eq_refl) as [[r Hm] _]. rewrite Hm.
    destruct (isPaused (recordingState (run es (initial store)))); by split.
  - destruct (Hoff eq_refl) as (-> & _ & ->). by split.
Qed.

(** The controls follow the phase.  In every state that events lead to,
    Start is in the page exactly in phase [Idle] (and can be clicked when
    the permission is granted), Pause exactly in phase [Recording], Resume
    exactly in phase [Paused], and Stop in both of these. *)
Theorem controls_follow_phase (es : list Event)
    (store : option (gmap string AudioRecording)) :
  let w := run es (initial store) in
  (offered StartButton w = true <->
     phase (recordingState w) = Idle /\ permissionGranted w = true) /\
  (offered PauseButton w = true <-> phase (recordingState w) = Recording) /\
  (offered ResumeButton w = true <-> phase (recordingState w) = Paused) /\
  (offered StopButton w = true <-> phase (recordingState w) <> Idle).
Proof.
  cbv zeta.
  destruct (handles_match_run es _ (handles_match_initial store)) as [_ Hoff].
  unfold offered, phase.
  destruct (isRecording (recordingState (run es (initial store)))) eqn:Hr.
  - destruct (isPaused (recordingState (run es (initial store)))); simpl;
      repeat split; (done || by intros []).
  - destruct (Hoff eq_refl) as (_ & _ & ->). simpl.
    repeat split; (done || by intros []).
Qed.
End ReachableExtras.

Section StreamExtras.
Import Js AudioRecorder MediaDevices.

Lemma kept_requestMicrophonePermission w permission k tracks :
  streams w !! k = Some tracks ->
  (forall r rec, recorders w !! r = Some rec -> onstop_stream rec <> k) ->
  let w' := exec (requestMicrophonePermission permission) w in
  streams w' !! k = Some tracks /\
  (forall r rec, recorders w' !! r = Some rec -> onstop_stream rec <> k).
Proof.
  intros Hk Hrec. cbv zeta. js. destruct permission as [tracks'|e]; simpl; [|done].
  rewrite alter_new. split; [by apply lookup_app_l_Some|done].
Qed.

Lemma kept_step w e k tracks :
  streams w !! k = Some tracks ->
  (forall r rec, recorders w !! r = Some rec -> onstop_stream rec <> k) ->
  streams (step w e) !! k = Some tracks /\
  (forall r rec, recorders (step w e) !! r = Some rec -> onstop_stream rec <> k).
Proof.
  intros Hk Hrec.
  destruct e as [perm|open|b perm|outcome mime|t|r data|r clock request|
                 perm enum|device outcome].
  - by apply kept_requestMicrophonePermission.
  - js. destruct (AudioStorage.init open (audioStorage w)) as [[] s]; simpl; done.
  - unfold step, exec, handle. destruct (offered b w); [|done].
    destruct b; unfold onClick;
      try (by apply kept_requestMicrophonePermission).
    + unfold startRecording, render; simpl. destruct (permissionGranted w); simpl.
      * js. done.
      * by apply kept_requestMicrophonePermission.
    + js. simpl.
      destruct (mediaRecorder (recordingState w)) as [r0|]; [|done].
      destruct (isRecording (recordingState w)); [|done].
      destruct (default inactive (state <$> recorders w !! r0));
        simpl; [done| |]; destruct (timerRef w); simpl;
        (split; [done|]; intros r' rec' Hl';
         apply lookup_alter_set_state in Hl' as (rec0 & Hl' & -> & _);
         by eapply Hrec).
    + js. simpl.
      destruct (mediaRecorder (recordingState w)) as [r0|]; [|done].
      destruct (isRecording (recordingState w)); [|done].
      destruct (default inactive (state <$> recorders w !! r0));
        simpl; [done| |]; (split; [done|]; intros r' rec' Hl';
         apply lookup_alter_set_state in Hl' as (rec0 & Hl' & -> & _);
         by eapply Hrec).
    + js. simpl.
      destruct (mediaRecorder (recordingState w)) as [r0|]; [|done].
      destruct (isPaused (recordingState w)); [|done].
      destruct (default inactive (state <$> recorders w !! r0));
        simpl; [done| |]; (split; [done|]; intros r' rec' Hl';
         apply lookup_alter_set_state in Hl' as (rec0 & Hl' & -> & _);
         by eapply Hrec).
  - js. destruct (awaiting w) as [|closure rest]; [done|]. simpl.
    destruct outcome as [tracks'|e]; simpl; [|done].
    rewrite lookup_new. simpl. rewrite alter_new.
    split; [by apply lookup_app_l_Some|].
    intros r rec [[_ Hl]|[_ <-]]%lookup_snoc_Some; [by eapply Hrec|]. simpl.
    apply lookup_lt_Some in Hk. lia.
  - js. by destruct (bool_decide (t ∈ intervals w)).
  - by destruct (step_DataAvailable w r data) as [-> | ->].
  - js. destruct (recorders w !! r) as [rec|] eqn:Hl; simpl; [|done].
    destruct (stop_pending rec); simpl; [|done].
    assert (onstop_stream rec <> k) as Hne by by eapply Hrec.
    destruct (AudioStorage.saveRecording _ request (audioStorage w)) as [[|e] st];
      simpl; destruct (timerRef w); simpl;
      (split; [by rewrite list_lookup_alter_ne|]);
      intros r' rec' Hl';
      apply lookup_alter_set_state in Hl' as (rec0 & Hl' & -> & _);
      by eapply Hrec.
  - destruct (step_DevicesLoaded_cases w perm enum) as [-> | [tracks' ->]]; [done|].
    simpl. split; [by apply lookup_app_l_Some|done].
  - destruct (step_DeviceSelected_cases w device outcome) as [-> | [tracks' ->]];
      [done|].
    simpl. split; [by apply lookup_app_l_Some|done].
Qed.

Lemma kept_run es k tracks : forall w,
  streams w !! k = Some tracks ->
  (forall r rec, recorders w !! r = Some rec -> onstop_stream rec <> k) ->
  streams (run es w) !! k = Some tracks.
Proof.
  induction es as [|e es IH]; intros w Hk Hrec; [done|].
  destruct (kept_step w e k tracks Hk Hrec) as [Hk' Hrec'].
  by apply IH.
Qed.

(** The stream that [getAudioInputDevices] opens for the selector is never
    stopped.  Whenever [loadDevices] runs and [getUserMedia] gives a
    stream, that stream stays in the page with its tracks exactly as they
    were given, whatever happens afterwards: permission requests, starts,
    pauses and stops of recordings, tests of devices, and further runs of
    [loadDevices], each of which opens one more. *)
Theorem selector_stream_is_never_stopped
    (store : option (gmap string AudioRecording)) (before after : list Event)
    (tracks : MediaStream) (enumeration : AudioDeviceManager.Enumeration) :
  let w := run before (initial store) in
  let w' := run (DevicesLoaded (Resolve tracks) enumeration :: after) w in
  length (streams (step w (DevicesLoaded (Resolve tracks) enumeration))) =
    S (length (streams w)) /\
  streams w' !! length (streams w) = Some tracks.
Proof.
  cbv zeta. set (w := run before (initial store)).
  assert (consistent w) as (Hrec & _) by apply consistent_run, consistent_initial.
  change (run (?e :: ?es) w) with (run es (step w e)).
  rewrite step_DevicesLoaded. simpl. split.
  { rewrite length_app. simpl. lia. }
  apply kept_run.
  - simpl. apply lookup_new.
  - simpl. intros r rec Hl. apply Hrec in Hl as [ts Hts].
    apply lookup_lt_Some in Hts. lia.
Qed.

(** The page is loaded, the selector lists the devices, and a recording is
    made and stopped: the stream of the selector is live at the end. *)
Example selector_stream_scenario :
  let w := run (Scenario.loaded
                ++ [DevicesLoaded Scenario.microphone (AudioDeviceManager.Enumerated [])]
                ++ Scenario.start ++ Scenario.stop 0 Scenario.clock) (initial None) in
  phase (recordingState w) = Idle /\
  streams w = [[mkTrack audio ended]; [mkTrack audio live]; [mkTrack audio ended]].
Proof. by vm_compute. Qed.
End StreamExtras.

(** ** The recorder: leaving the page, and the display of the time *)

Section DisplayExtras.
Import Js AudioRecorder MediaDevices.

(** The cleanup of the mount effect is the function of the first render,
    where [recordingState.audioStream] is null.  Whenever it runs, it
    clears the interval of [timerRef] and nothing else: no track of any
    stream is stopped and no recorder changes its state, so the microphone
    of a session that is going on stays open. *)
Theorem unmount_keeps_streams (store : option (gmap string AudioRecording))
    (w : World) :
  let w' := exec (unmount (render (initial store))) w in
  streams w' = streams w /\
  recorders w' = recorders w /\
  recordingState w' = recordingState w /\
  intervals w' = intervals w ∖ from_option singleton ∅ (timerRef w).
Proof.
  unfold unmount. js. simpl. destruct (timerRef w) as [t|]; simpl.
  - done.
  - repeat (split; [done|]). symmetry. apply difference_empty_L.
Qed.

Lemma two_digits (n : Z) :
  0 <= n < 100 ->
  padStart 2 "0" (pretty n) = pretty (n `div` 10) +:+ pretty (n `mod` 10).
Proof.
  intros Hn.
  assert (forallb (fun k => String.eqb
                     (padStart 2 "0" (pretty (Z.of_nat k)))
                     (pretty (Z.of_nat k `div` 10) +:+ pretty (Z.of_nat k `mod` 10)))
            (seq 0 100) = true) as Hall by (vm_compute; reflexivity).
  rewrite forallb_forall in Hall. specialize (Hall (Z.to_nat n)).
  rewrite Z2Nat.id in Hall by lia. apply String.eqb_eq, Hall.
  apply in_seq. lia.
Qed.

Lemma append_assoc (a b c : string) : (a +:+ b) +:+ c = a +:+ b +:+ c.
Proof.
  induction a as [|x a IH]; [reflexivity|].
  change (String x ((a +:+ b) +:+ c) = String x (a +:+ b +:+ c)).
  by rewrite IH.
Qed.

(** [formatTime] shows a count of seconds below 100 minutes as [mm:ss]:
    the tens and the units of the minutes, a colon, the tens and the units
    of the seconds, five characters in all. *)
Theorem formatTime_mm_ss (seconds : Z) :
  0 <= seconds < 6000 ->
  formatTime seconds =
    pretty (seconds `div` 600) +:+ pretty ((seconds `div` 60) `mod` 10) +:+ ":" +:+
    pretty ((seconds `mod` 60) `div` 10) +:+ pretty (seconds `mod` 10) /\
  String.length (formatTime seconds) = 5%nat.
Proof.
  intros Hs. unfold formatTime.
  assert (0 <= seconds `div` 60 < 100) as Hm.
  { split; [apply Z.div_pos; lia|apply Z.div_lt_upper_bound; lia]. }
  assert (Z.rem seconds 60 = seconds `mod` 60) as -> by (apply Z.rem_mod_nonneg; lia).
  assert (0 <= seconds `mod` 60 < 60) as Hsec by (apply Z.mod_pos_bound; lia).
  rewrite !two_digits by lia.
  assert ((seconds `div` 60) `div` 10 = seconds `div` 600) as ->
    by (rewrite Z.div_div by lia; done).
  assert ((seconds `mod` 60) `mod` 10 = seconds `mod` 10) as ->.
  { rewrite (Z.div_mod seconds 60) at 2 by lia.
    replace (60 * (seconds `div` 60) + seconds `mod` 60)
      with (seconds `mod` 60 + (6 * (seconds `div` 60)) * 10) by lia.
    by rewrite Z.mod_add by lia. }
  rewrite append_assoc. split; [done|].
  assert (forall n, 0 <= n < 10 -> String.length (pretty n) = 1%nat) as Hone.
  { intros n Hn.
    assert (forallb (fun k => Nat.eqb (String.length (pretty (Z.of_nat k))) 1)
              (seq 0 10) = true) as Hall by (vm_compute; reflexivity).
    rewrite forallb_forall in Hall. specialize (Hall (Z.to_nat n)).
    rewrite Z2Nat.id in Hall by lia. apply Nat.eqb_eq, Hall. apply in_seq. lia. }
  rewrite !length_append, !Hone; [done|..].
  - apply Z.mod_pos_bound. lia.
  - split; [apply Z.div_pos; lia|apply Z.div_lt_upper_bound; lia].
  - apply Z.mod_pos_bound. lia.
  - split; [apply Z.div_pos; lia|apply Z.div_lt_upper_bound; lia].
Qed.

Lemma formatTime_mm_ss_witness :
  0 <= 125 < 6000 /\
  (formatTime 125 =
     pretty (125 `div` 600) +:+ pretty ((125 `div` 60) `mod` 10) +:+ ":" +:+
     pretty ((125 `mod` 60) `div` 10) +:+ pretty (125 `mod` 10) /\
   String.length (formatTime 125) = 5%nat).
Proof.
  assert (0 <= 125 < 6000) as Hs by lia.
  split; [exact Hs|]. exact (formatTime_mm_ss 125 Hs).
Defined.

Example formatTime_examples :
  formatTime 0 = "00:00" /\ formatTime 59 = "00:59" /\
  formatTime 60 = "01:00" /\ formatTime 125 = "02:05" /\
  formatTime 5999 = "99:59" /\ formatTime 6000 = "100:00".
Proof. by vm_compute. Qed.
End DisplayExtras.

(** ** The page: the list of recordings *)

Ltac home :=
  unfold Home.initializeStorage, Home.deleteRecording, Home.handleRecordingsChange,
    Home.loadRecordings, Home.handleRecordingComplete, Home.storage,
    Home.setRecordings, Home.setIsLoading, Js.try_finally, Js.try_catch, Js.bind,
    Js.modify, Js.when, Js.ret, Js.exec in *.

Section HomeExtras.
Import Js AudioStorage.

Lemma ltb_trans (a b c : string) :
  String.ltb a b = true -> String.ltb b c = true -> String.ltb a c = true.
Proof.
  unfold String.ltb.
  destruct (String.compare a b) eqn:Hab; [done| |done].
  destruct (String.compare b c) eqn:Hbc; [done| |done].
  intros _ _.
  apply OrderedTypeEx.String_as_OT.cmp_lt in Hab, Hbc.
  pose proof (OrderedTypeEx.String_as_OT.lt_trans _ _ _ Hab Hbc) as Hac.
  apply OrderedTypeEx.String_as_OT.cmp_lt in Hac.
  unfold OrderedTypeEx.String_as_OT.cmp in Hac. by rewrite Hac.
Qed.

Lemma ltb_trichotomy (a b : string) :
  String.ltb a b = true \/ a = b \/ String.ltb b a = true.
Proof.
  unfold String.ltb. rewrite (String.compare_antisym b a).
  destruct (String.compare a b) eqn:Hab; simpl.
  - right. left. by apply String.compare_eq_iff.
  - by left.
  - by right; right.
Qed.

Lemma ltb_asym (a b : string) : String.ltb a b = true -> String.ltb b a = false.
Proof.
  unfold String.ltb. rewrite (String.compare_antisym b a).
  by destruct (String.compare a b).
Qed.

(** [a] stands before [b] in the index: it is older, or as old with an
    identifier that is not greater. *)
Lemma before_index_compare a b :
  before index_compare a b <->
  createdAt a < createdAt b \/
  (createdAt a = createdAt b /\ String.ltb (id b) (id a) = false).
Proof.
  unfold before, index_compare.
  destruct (createdAt a <? createdAt b) eqn:Hab.
  { apply Z.ltb_lt in Hab. split; [by left|lia]. }
  apply Z.ltb_ge in Hab.
  destruct (createdAt b <? createdAt a) eqn:Hba.
  { apply Z.ltb_lt in Hba. split; [lia|]. intros [?|[? _]]; lia. }
  apply Z.ltb_ge in Hba.
  destruct (String.ltb (id b) (id a)).
  - split; [lia|]. by intros [?|[_ ?]]; [lia|].
  - split; [|lia]. intros _. right. split; [lia|done].
Qed.

Lemma index_compare_total a b :
  before index_compare a b \/ before index_compare b a.
Proof.
  rewrite !before_index_compare.
  destruct (Z.lt_trichotomy (createdAt a) (createdAt b)) as [?|[Heq|?]];
    [by left; left| |by right; left].
  destruct (String.ltb (id b) (id a)) eqn:Hba.
  - right. right. split; [done|]. by apply ltb_asym.
  - left. by right.
Qed.

Lemma index_compare_trans a b c :
  before index_compare a b -> before index_compare b c -> before index_compare a c.
Proof.
  rewrite !before_index_compare.
  intros [Hab|[Hab Hba]] [Hbc|[Hbc Hcb]]; [left; lia..|].
  right. split; [lia|].
  destruct (String.ltb (id c) (id a)) eqn:Hca; [|done].
  destruct (ltb_trichotomy (id a) (id b)) as [Hlt|[Heq|Hlt]].
  - by rewrite (ltb_trans _ _ _ Hca Hlt) in Hcb.
  - rewrite Heq in Hca. by rewrite Hca in Hcb.
  - by rewrite Hlt in Hba.
Qed.

Lemma index_getAll_sorted m : StronglySorted (before index_compare) (index_getAll m).
Proof.
  unfold index_getAll.
  apply sort_StronglySorted; [apply index_compare_total|apply index_compare_trans].
Qed.

Lemma elem_of_records (m : gmap string AudioRecording) r :
  r ∈ records m <-> exists k, m !! k = Some r.
Proof.
  unfold records. rewrite list_elem_of_fmap. split.
  - intros ([k r'] & -> & Hin). exists k. by apply elem_of_map_to_list.
  - intros [k Hk]. exists (k, r). split; [done|]. by apply elem_of_map_to_list.
Qed.

Lemma elem_of_getRecordings (m : gmap string AudioRecording) r :
  r ∈ sort newest_first (index_getAll m) <-> exists k, m !! k = Some r.
Proof.
  by rewrite sort_Permutation, index_getAll_Permutation, elem_of_records.
Qed.

(** The index lists a recording that is newer than all the others last. *)
Lemma index_getAll_insert (m : gmap string AudioRecording) recording :
  (forall k r, m !! k = Some r -> id r = k) ->
  m !! id recording = None ->
  (forall k r, m !! k = Some r -> createdAt r < createdAt recording) ->
  index_getAll (<[id recording := recording]> m) = index_getAll m ++ [recording].
Proof.
  intros Hkeyed Hfresh Hnewer.
  assert (forall k r, <[id recording := recording]> m !! k = Some r -> id r = k)
    as Hkeyed'.
  { intros k r. destruct (decide (id recording = k)) as [<-|Hne].
    - rewrite lookup_insert_eq. by intros [= <-].
    - rewrite lookup_insert_ne by done. apply Hkeyed. }
  assert (index_getAll (<[id recording := recording]> m) ≡ₚ
          index_getAll m ++ [recording]) as Hperm.
  { rewrite !index_getAll_Permutation. unfold records.
    rewrite map_to_list_insert by done. rewrite fmap_cons. simpl.
    by rewrite Permutation_app_comm. }
  apply (StronglySorted_unique_strong (before index_compare)).
  - intros x1 x2 Hx1 Hx2. rewrite <- Hperm in Hx2.
    rewrite index_getAll_Permutation in Hx1, Hx2.
    apply elem_of_records in Hx1 as [k1 Hk1], Hx2 as [k2 Hk2].
    rewrite !before_index_compare.
    intros H12 H21.
    assert (id x1 = id x2) as Hid.
    { destruct H12 as [?|[? H12]], H21 as [?|[? H21]]; try lia.
      destruct (ltb_trichotomy (id x1) (id x2)) as [Hlt|[Heq|Hlt]];
        [by rewrite Hlt in H21|done|by rewrite Hlt in H12]. }
    rewrite <- (Hkeyed' _ _ Hk1) in Hk1. rewrite <- (Hkeyed' _ _ Hk2) in Hk2.
    rewrite Hid in Hk1. congruence.
  - apply index_getAll_sorted.
  - apply StronglySorted_app_2.
    + intros x1 x2 Hx1 Hx2. apply list_elem_of_singleton in Hx2 as ->.
      apply before_index_compare. left.
      rewrite index_getAll_Permutation in Hx1.
      apply elem_of_records in Hx1 as [k Hk]. by eapply Hnewer.
    + apply index_getAll_sorted.
    + repeat constructor.
  - done.
Qed.
(** [sort] moves a recording that is newer than all the others from the
    end to the front and leaves the others in their order. *)
Lemma sort_newest_first_snoc (l : list AudioRecording) recording :
  (forall r, r ∈ l -> createdAt r < createdAt recording) ->
  sort newest_first (l ++ [recording]) = recording :: sort newest_first l.
Proof.
  induction l as [|x l IH]; intros Hnewer; [done|].
  change (sort_insert newest_first x (sort newest_first (l ++ [recording])) =
          recording :: sort_insert newest_first x (sort newest_first l)).
  rewrite IH by (intros r Hr; apply Hnewer; by apply list_elem_of_further).
  simpl. unfold newest_first at 1.
  assert (createdAt x < createdAt recording) as Hx
    by (apply Hnewer; apply list_elem_of_here).
  destruct (createdAt recording - createdAt x <=? 0) eqn:Hle; [|done].
  apply Z.leb_le in Hle. lia.
Qed.

Lemma home_eta (s : Home.t) :
  Home.mk (Home.recordings s) (Home.isLoading s) (Home.audioRefs s)
    (Home.audioStorage s) = s.
Proof. by destruct s. Qed.

(** [initializeStorage] never rejects and always ends the loading state,
    and the storage is as [init] leaves it.  When [init] resolves, the
    database has the store and the read succeeds, the list of the page is
    what the store holds, the newest first: the empty list in a browser
    that had no database.  In every other case the list stays as it was:
    when [init] rejects, when the read fails, and when [init] resolves on
    a database that lacks the store, where the read rejects with
    NotFoundError and the page shows its empty list. *)
Theorem initializeStorage_outcome (s : Home.t) (open request : Request) :
  let s' := exec (Home.initializeStorage open request) s in
  let opened := init open (Home.audioStorage s) in
  fst (Home.initializeStorage open request s) = Normal tt /\
  Home.isLoading s' = false /\
  Home.audioRefs s' = Home.audioRefs s /\
  Home.audioStorage s' = snd opened /\
  (forall m, fst opened = Normal tt -> recordings (snd opened) = Some m ->
             request = Success -> Home.in_sync s' m) /\
  (fst opened <> Normal tt \/ recordings (snd opened) = None \/ request <> Success ->
   Home.recordings s' = Home.recordings s) /\
  (open = Success -> request = Success ->
   version (Home.audioStorage s) = 0%N -> recordings (Home.audioStorage s) = None ->
   Home.in_sync s' ∅ /\ Home.recordings s' = []) /\
  (open = Success ->
   version (Home.audioStorage s) = DB_VERSION ->
   recordings (Home.audioStorage s) = None ->
   db (Home.audioStorage s') = Some Connection /\
   recordings (Home.audioStorage s') = None /\
   Home.recordings s' = Home.recordings s).
Proof.
  destruct s as [recs loading refs [d m v]]. cbv zeta.
  assert (sort newest_first (index_getAll ∅) = []) as Hempty by done.
  destruct open as [|e].
  - home. unfold init. simpl.
    destruct (v <? DB_VERSION)%N eqn:Hlt; [|destruct (DB_VERSION <? v)%N eqn:Hgt];
      simpl.
    + destruct request as [|e']; simpl.
      * do 4 (split; [done|]).
        split; [by intros m' _ [= <-] _|].
        split; [by intros [?|[?|?]]|].
        split; [|intros _ ->; apply N.ltb_lt in Hlt; done].
        intros _ _ _ ->. simpl. by rewrite Hempty.
      * do 4 (split; [done|]).
        split; [by intros m' _ _ [=]|].
        split; [done|].
        split; [by intros _ [=]|]. intros _ ->. apply N.ltb_lt in Hlt. done.
    + do 4 (split; [done|]).
      split; [by intros m' [=]|].
      split; [done|].
      split; [intros _ _ ->; by apply N.ltb_lt in Hgt|].
      intros _ ->. by apply N.ltb_lt in Hgt.
    + destruct m as [m|]; destruct request as [|e']; simpl;
        do 4 (split; [done|]).
      * split; [by intros m' _ [= <-] _|].
        split; [by intros [?|[?|?]]|].
        split; [by intros _ _ _ [=]|by intros _ _ [=]].
      * split; [by intros m' _ _ [=]|].
        split; [done|].
        split; [by intros _ [=]|by intros _ _ [=]].
      * split; [by intros m' _ [=]|].
        split; [done|].
        split; [|done].
        intros _ _ ->. by apply N.ltb_ge in Hlt.
      * split; [by intros m' _ [=]|].
        split; [done|].
        split; [by intros _ [=]|done].
  - home. simpl. do 4 (split; [done|]).
    split; [by intros m' [=]|]. split; [done|]. split; by intros [=].
Qed.

(** A deletion that the user confirms and that succeeds, followed by the
    reload it asks for: the list of the page is what the store now holds,
    it has no recording of that identifier, every other recording it had
    is still there, and the audio element of the recording is gone. *)
Theorem deleteRecording_updates_list (s : Home.t)
    (m : gmap string AudioRecording) (recordingId : string) :
  Home.in_sync s m ->
  keyed (Home.audioStorage s) ->
  let s' := exec (Home.deleteRecording true recordingId Success Success) s in
  Home.in_sync s' (delete recordingId m) /\
  (forall r, r ∈ Home.recordings s' -> id r <> recordingId) /\
  (forall r, r ∈ Home.recordings s -> id r <> recordingId ->
             r ∈ Home.recordings s') /\
  (forall r, r ∈ Home.recordings s' -> r ∈ Home.recordings s) /\
  recordingId ∉ Home.audioRefs s'.
Proof.
  intros [Hready Hlist] Hkeyed. cbv zeta. home. simpl.
  rewrite (deleteRecording_ready _ m) by done. simpl.
  rewrite Hlist. destruct Hready as [_ Hm].
  split; [done|].
  split; [|split; [|split]].
  - intros r [k [Hne Hk]%lookup_delete_Some]%elem_of_getRecordings.
    by rewrite (Hkeyed m k r Hm Hk).
  - intros r [k Hk]%elem_of_getRecordings Hne. apply elem_of_getRecordings.
    exists k. apply lookup_delete_Some. split; [|done].
    by rewrite <- (Hkeyed m k r Hm Hk).
  - intros r [k [_ Hk]%lookup_delete_Some]%elem_of_getRecordings.
    apply elem_of_getRecordings. by exists k.
  - intros [_ Hnot]%elem_of_difference. apply Hnot. by apply elem_of_singleton.
Qed.

Lemma deleteRecording_updates_list_witness :
  let a := mkAudioRecording "r1" "A" (mkBlob [] "") 5 100 "" in
  let b := mkAudioRecording "r2" "B" (mkBlob [] "") 3 200 "" in
  let m : gmap string AudioRecording := <[id b := b]> (<[id a := a]> ∅) in
  let s := Home.mk [b; a] false {["r1"]}
             (calls [Init Success; Save a Success; Save b Success] (new None)) in
  Home.in_sync s m /\
  keyed (Home.audioStorage s) /\
  let s' := exec (Home.deleteRecording true "r1" Success Success) s in
  Home.in_sync s' (delete "r1" m) /\
  (forall r, r ∈ Home.recordings s' -> id r <> "r1") /\
  (forall r, r ∈ Home.recordings s -> id r <> "r1" -> r ∈ Home.recordings s') /\
  (forall r, r ∈ Home.recordings s' -> r ∈ Home.recordings s) /\
  "r1" ∉ Home.audioRefs s'.
Proof.
  intros a b m s.
  assert (Home.in_sync s m) as Hsync.
  { split; [split|]; vm_compute; reflexivity. }
  assert (keyed (Home.audioStorage s)) as Hkeyed.
  { apply keyed_calls, keyed_new. }
  split; [exact Hsync|]. split; [exact Hkeyed|].
  exact (deleteRecording_updates_list s m "r1" Hsync Hkeyed).
Defined.

(** A deletion that the user does not confirm, or that fails, changes
    nothing: the store, the list and the audio elements are as before, and
    no reload is made.  When the deletion succeeds and the reload fails,
    the list is left as it was and still shows the deleted recording. *)
Theorem deleteRecording_without_effect (s : Home.t)
    (m : gmap string AudioRecording) (recordingId e : string)
    (request reload : Request) :
  exec (Home.deleteRecording false recordingId request reload) s = s /\
  exec (Home.deleteRecording true recordingId (Failure e) reload) s = s /\
  (db (Home.audioStorage s) = None ->
   exec (Home.deleteRecording true recordingId request reload) s = s) /\
  (ready (Home.audioStorage s) m ->
   let s' := exec (Home.deleteRecording true recordingId Success (Failure e)) s in
   ready (Home.audioStorage s') (delete recordingId m) /\
   Home.recordings s' = Home.recordings s).
Proof.
  split; [done|].
  assert (forall request',
            (exists e', deleteRecording recordingId request' (Home.audioStorage s) =
                          (Thrown e', Home.audioStorage s)) ->
            exec (Home.deleteRecording true recordingId request' reload) s = s)
    as Hthrown.
  { intros request' [e' He']. home. simpl. rewrite He'. simpl. apply home_eta. }
  split; [|split].
  - apply Hthrown. unfold deleteRecording, with_store.
    destruct (db (Home.audioStorage s)); [|by eexists].
    destruct (recordings (Home.audioStorage s)); by eexists.
  - intros Hdb. apply Hthrown. unfold deleteRecording, with_store. rewrite Hdb.
    by eexists.
  - intros Hready. cbv zeta. home. simpl.
    by rewrite (deleteRecording_ready _ m).
Qed.

(** [handleRecordingComplete] agrees with a reload.  When the list of the
    page shows the store and a recording is saved that has a new
    identifier and is newer than every stored one, putting it at the head
    of the list gives the very list that reading the store again gives. *)
Theorem handleRecordingComplete_agrees_with_reload (s : Home.t)
    (m : gmap string AudioRecording) (recording : AudioRecording) :
  Home.in_sync s m ->
  keyed (Home.audioStorage s) ->
  m !! id recording = None ->
  (forall k r, m !! k = Some r -> createdAt r < createdAt recording) ->
  let saved := exec (Home.storage (saveRecording recording Success)) s in
  exec (Home.handleRecordingComplete recording) saved =
    exec (Home.handleRecordingsChange Success) saved /\
  Home.in_sync (exec (Home.handleRecordingComplete recording) saved)
    (<[id recording := recording]> m).
Proof.
  intros [Hready Hlist] Hkeyed Hfresh Hnewer. cbv zeta.
  assert (sort newest_first (index_getAll (<[id recording := recording]> m)) =
          recording :: Home.recordings s) as Hsorted.
  { rewrite index_getAll_insert; [|intros k r; apply (Hkeyed m k r (proj2 Hready))|done|done].
    rewrite sort_newest_first_snoc, Hlist; [done|].
    intros r Hr. rewrite index_getAll_Permutation in Hr.
    apply elem_of_records in Hr as [k Hk]. by eapply Hnewer. }
  home. simpl. rewrite (saveRecording_ready _ m) by done. simpl.
  by rewrite Hsorted.
Qed.

Lemma handleRecordingComplete_agrees_with_reload_witness :
  let a := mkAudioRecording "r1" "A" (mkBlob [] "") 5 100 "" in
  let b := mkAudioRecording "r2" "B" (mkBlob [] "") 3 200 "" in
  let m : gmap string AudioRecording := <[id a := a]> ∅ in
  let s := Home.mk [a] false ∅
             (calls [Init Success; Save a Success] (new None)) in
  Home.in_sync s m /\
  keyed (Home.audioStorage s) /\
  m !! id b = None /\
  (forall k r, m !! k = Some r -> createdAt r < createdAt b) /\
  let saved := exec (Home.storage (saveRecording b Success)) s in
  exec (Home.handleRecordingComplete b) saved =
    exec (Home.handleRecordingsChange Success) saved /\
  Home.in_sync (exec (Home.handleRecordingComplete b) saved) (<[id b := b]> m).
Proof.
  intros a b m s.
  assert (Home.in_sync s m) as Hsync.
  { split; [split|]; vm_compute; reflexivity. }
  assert (keyed (Home.audioStorage s)) as Hkeyed.
  { apply keyed_calls, keyed_new. }
  assert (m !! id b = None) as Hfresh by (vm_compute; reflexivity).
  assert (forall k r, m !! k = Some r -> createdAt r < createdAt b) as Hnewer.
  { intros k r Hk. unfold m in Hk.
    apply lookup_insert_Some in Hk as [[_ <-]|[_ Hk]]; [simpl; lia|].
    by rewrite lookup_empty in Hk. }
  split; [exact Hsync|]. split; [exact Hkeyed|]. split; [exact Hfresh|].
  split; [exact Hnewer|].
  exact (handleRecordingComplete_agrees_with_reload s m b Hsync Hkeyed Hfresh Hnewer).
Defined.
End HomeExtras.
